(** * Smart Route Finder: the graph model and Dijkstra's algorithm

    A shallow embedding of the core of [miniproject.py]: the adjacency
    dictionary of [GraphRouteFinder], its two mutators [add_edge] and
    [remove_edge], the method [dijkstra] with its lazy-deletion priority
    queue and its parent-pointer path reconstruction, and the logic of
    its callers: the guards of [add_edge_handler] and
    [remove_edge_handler], the report of [find_route] with its detail
    rows, and the edges [visualize_graph] highlights.  Widgets, plotting
    and the JSON file are left out.

    Modelling conventions.
    - Node names are Python strings; they are [string] here.  Python orders
      strings by code point, which is the byte order of their UTF-8
      encoding, the order [String.le] implements.
    - Edge weights come in two kinds.  The default graph, and a saved
      file written with integer literals, hold Python ints; their sums are
      exact, and Python compares an int with [float('inf')] exactly.  On
      such graphs weights are [Z] and [float('inf')] is the constructor
      [Inf] of [distance]; every statement about [dijkstra] and
      [find_route] on a [graph] is a statement about graphs with int
      weights.  A weight entered through the editor is a float
      ([float(weight_str)]); module [Float64] is the same code on binary64
      floats, with their rounding, overflow and NaN.  Graphs that mix the
      two kinds are not modelled.
    - What never looks at a weight ([add_edge], [remove_edge],
      [remove_edge_handler], the invariants [symmetric] and [closed]) is
      stated once, for every type of weights.
    - [KeyError] is modelled without the key it reports.
    - A Python [dict] is a [gmap]; [dict] lookups that raise [KeyError]
      are modelled by [getitem], guarded deletions by [delitem].  The inner
      dictionaries of the graph are never shared, so writing an updated
      inner dictionary back is the in-place update.
    - A call either returns a value, raises, or (for the loops, which
      recurse on a fuel counter) runs out of fuel; the theorems show the
      last never happens with the fuel [dijkstra] provides.
    - [heapq] is modelled by its contract: the queue is a list kept in
      non-decreasing order of its [(distance, node)] tuples, tuples being
      compared lexicographically as Python does; [heappop] removes the
      head.
    - The adjacency entries of a node are relaxed in the order of
      [map_to_list]; Python iterates in insertion order.  The result does
      not depend on the order ([relax_all_perm]). *)

From stdpp Require Import base gmap sets list strings sorting.
From Stdlib Require Import ZArith Lia PrimFloat.

Open Scope string_scope.
Open Scope list_scope.
Open Scope Z_scope.

(** ** Outcomes of a call *)

Inductive exn := KeyError.

Inductive outcome (A : Type) : Type :=
  | Returns (a : A)
  | Raises (e : exn)
  | OutOfFuel.
Arguments Returns {A} a.
Arguments Raises {A} e.
Arguments OutOfFuel {A}.

Global Instance outcome_ret : MRet outcome := @Returns.
Global Instance outcome_bind : MBind outcome := λ A B f m,
  match m with
  | Returns a => f a
  | Raises e => Raises e
  | OutOfFuel => OutOfFuel
  end.

(** ** Python dictionary primitives *)

Section dict.
Context {K : Type} `{Countable K} {V : Type}.

(** [d[k]] *)
Definition getitem (d : gmap K V) (k : K) : outcome V :=
  match d !! k with
  | Some v => Returns v
  | None => Raises KeyError
  end.

(** [del d[k]] *)
Definition delitem (d : gmap K V) (k : K) : outcome (gmap K V) :=
  match d !! k with
  | Some _ => Returns (delete k d)
  | None => Raises KeyError
  end.
End dict.

(** ** The graph *)

Abbreviation node := string (only parsing).
Abbreviation graph_of V := (gmap string (gmap string V)) (only parsing).
Abbreviation graph := (gmap string (gmap string Z)) (only parsing).

(** [graph[a][b]], when both lookups succeed. *)
Definition weight_of {V} (g : graph_of V) (a b : node) : option V :=
  g !! a ≫= λ m, m !! b.

(** The graph built by [load_default_graph] when no saved graph exists. *)
Definition default_graph : graph :=
  list_to_map
    [ ("A", list_to_map [("B", 4); ("C", 2)]);
      ("B", list_to_map [("A", 4); ("C", 1); ("D", 5)]);
      ("C", list_to_map [("A", 2); ("B", 1); ("D", 8); ("E", 10)]);
      ("D", list_to_map [("B", 5); ("C", 8); ("E", 2); ("F", 6)]);
      ("E", list_to_map [("C", 10); ("D", 2); ("F", 2)]);
      ("F", list_to_map [("D", 6); ("E", 2)]) ].

(** ** Edge mutation *)

(** [add_edge(node1, node2, weight)] *)
Definition add_edge {V} (node1 node2 : node) (weight : V) (g : graph_of V)
    : outcome (graph_of V) :=
  let g := if decide (node1 ∈ dom g) then g else <[node1 := ∅]> g in
  let g := if decide (node2 ∈ dom g) then g else <[node2 := ∅]> g in
  m1 ← getitem g node1;
  let g := <[node1 := <[node2 := weight]> m1]> g in
  m2 ← getitem g node2;
  mret (<[node2 := <[node1 := weight]> m2]> g).

(** [remove_edge(node1, node2)] *)
Definition remove_edge {V} (node1 node2 : node) (g : graph_of V)
    : outcome (graph_of V) :=
  g ← match g !! node1 with
      | Some m1 =>
          if decide (node2 ∈ dom m1)
          then m1' ← delitem m1 node2; mret (<[node1 := m1']> g)
          else mret g
      | None => mret g
      end;
  match g !! node2 with
  | Some m2 =>
      if decide (node1 ∈ dom m2)
      then m2' ← delitem m2 node1; mret (<[node2 := m2']> g)
      else mret g
  | None => mret g
  end.

(** The guard of [add_edge_handler].  [node1] and [node2] are the entry
    texts after [.strip().upper()]; [weight] is the result of
    [float(weight_str)], [None] standing for the [ValueError] the handler
    catches.  The handler reports through a message box.  Here the weight
    is a whole number; [Float64.add_edge_handler] below takes every
    float. *)
Inductive dialog :=
  | WarnEnterBothNodes
  | ErrorWeightNotNumber
  | ErrorWeightNotPositive
  | InfoEdgeAdded.

Definition add_edge_handler (node1 node2 : node) (weight : option Z)
    (g : graph) : outcome (graph * dialog) :=
  if decide (node1 = EmptyString ∨ node2 = EmptyString)
  then mret (g, WarnEnterBothNodes)
  else match weight with
       | None => mret (g, ErrorWeightNotNumber)
       | Some w =>
           if decide (w ≤ 0) then mret (g, ErrorWeightNotPositive)
           else g' ← add_edge node1 node2 w g; mret (g', InfoEdgeAdded)
       end.

(** ** The priority queue *)

Abbreviation entry := (Z * string)%type (only parsing).

(** Python's tuple comparison [e1 <= e2]. *)
Definition entry_le (e1 e2 : entry) : Prop :=
  e1.1 < e2.1 ∨ (e1.1 = e2.1 ∧ String.le e1.2 e2.2).

Global Instance entry_le_dec : RelDecision entry_le.
Proof. intros e1 e2. unfold entry_le. apply _. Defined.

Fixpoint heappush (x : entry) (pq : list entry) : list entry :=
  match pq with
  | [] => [x]
  | y :: pq' => if decide (entry_le x y) then x :: pq else y :: heappush x pq'
  end.

Definition heappop (pq : list entry) : option (entry * list entry) :=
  match pq with
  | [] => None
  | x :: pq' => Some (x, pq')
  end.

(** ** Dijkstra *)

Inductive distance := Fin (d : Z) | Inf.

Global Instance distance_eq_dec : EqDecision distance.
Proof. solve_decision. Defined.

(** [x < d] for a finite [x]. *)
Definition lt_distance (x : Z) (d : distance) : Prop :=
  match d with
  | Fin y => x < y
  | Inf => True
  end.

Global Instance lt_distance_dec x d : Decision (lt_distance x d).
Proof. destruct d; simpl; apply _. Defined.

Record state := State {
  pq : list entry;
  dist : gmap string distance;
  parent : gmap string (option string);
  visited : gset string
}.

(** One pass of the body of [for neighbor, weight in ...items()], for the
    expanded [u] popped with [curr_dist]. *)
Definition relax (curr_dist : Z) (u : node) (nw : node * Z) (st : state)
    : outcome state :=
  let '(neighbor, weight) := nw in
  if decide (neighbor ∈ visited st) then mret st
  else
    let new_dist := curr_dist + weight in
    d ← getitem (dist st) neighbor;
    if decide (lt_distance new_dist d)
    then mret (State (heappush (new_dist, neighbor) (pq st))
                     (<[neighbor := Fin new_dist]> (dist st))
                     (<[neighbor := Some u]> (parent st))
                     (visited st))
    else mret st.

Fixpoint relax_all (curr_dist : Z) (u : node) (items : list (node * Z))
    (st : state) : outcome state :=
  match items with
  | [] => mret st
  | nw :: items' =>
      st' ← relax curr_dist u nw st; relax_all curr_dist u items' st'
  end.

(** What one evaluation of the [while pq:] test and body leads to. *)
Inductive control := Continue (st : state) | Break (st : state).

Definition loop_body (g : graph) (target : node) (st : state)
    : outcome control :=
  match heappop (pq st) with
  | None => mret (Break st)
  | Some ((curr_dist, u), pq') =>
      if decide (u ∈ visited st)
      then mret (Continue (State pq' (dist st) (parent st) (visited st)))
      else
        let st := State pq' (dist st) (parent st) ({[u]} ∪ visited st) in
        if decide (u = target) then mret (Break st)
        else
          nbrs ← getitem g u;
          st' ← relax_all curr_dist u (map_to_list nbrs) st;
          mret (Continue st')
  end.

Fixpoint while_loop (fuel : nat) (g : graph) (target : node) (st : state)
    : outcome state :=
  match fuel with
  | O => OutOfFuel
  | S fuel' =>
      c ← loop_body g target st;
      match c with
      | Continue st' => while_loop fuel' g target st'
      | Break st' => mret st'
      end
  end.

(** [while step is not None: path.append(step); step = parent[step]] *)
Fixpoint reconstruct (fuel : nat) (parent : gmap string (option string))
    (step : option node) (path : list node) : outcome (list node) :=
  match step with
  | None => mret path
  | Some s =>
      match fuel with
      | O => OutOfFuel
      | S fuel' =>
          p ← getitem parent s;
          reconstruct fuel' parent p (path ++ [s])
      end
  end.

Definition init_state (g : graph) (start : node) : state :=
  State [(0, start)]
        (<[start := Fin 0]> ((λ _, Inf) <$> g))
        ((λ _, None) <$> g)
        ∅.

Definition dijkstra_fuel (fuel : nat) (g : graph) (start target : node)
    : outcome (distance * list node) :=
  if decide (start ∉ dom g ∨ target ∉ dom g) then mret (Inf, [])
  else
    st ← while_loop fuel g target (init_state g start);
    path ← reconstruct fuel (parent st) (Some target) [];
    let path := reverse path in
    d ← getitem (dist st) target;
    if decide (d = Inf) then mret (Inf, []) else mret (d, path).

(** Fuel that always suffices: every pop is paid for by the initial entry
    or by an adjacency entry of a node on its single expansion, and the
    parent chain visits each node at most once. *)
Definition total_degree {V} (g : graph_of V) : nat :=
  sum_list ((λ km, size km.2) <$> map_to_list g).

Definition fuel_bound {V} (g : graph_of V) : nat :=
  (2 + size g + total_degree g)%nat.

Definition dijkstra (g : graph) (start target : node)
    : outcome (distance * list node) :=
  dijkstra_fuel (fuel_bound g) g start target.

(** ** The other handlers *)

(** What [remove_edge_handler] reports through its message box. *)
Inductive remove_dialog :=
  | RemoveWarnEnterBothNodes
  | RemoveErrorNodesMissing
  | RemoveErrorNoEdge
  | RemoveInfoEdgeRemoved.

(** [remove_edge_handler]; [node1] and [node2] are the entry texts after
    [.strip().upper()]. *)
Definition remove_edge_handler {V} (node1 node2 : node) (g : graph_of V)
    : outcome (graph_of V * remove_dialog) :=
  if decide (node1 = EmptyString ∨ node2 = EmptyString)
  then mret (g, RemoveWarnEnterBothNodes)
  else if decide (node1 ∉ dom g ∨ node2 ∉ dom g)
  then mret (g, RemoveErrorNodesMissing)
  else
    m1 ← getitem g node1;
    if decide (node2 ∉ dom m1) then mret (g, RemoveErrorNoEdge)
    else g' ← remove_edge node1 node2 g; mret (g', RemoveInfoEdgeRemoved).

(** ** The same code on float weights *)

(** Every weight entered through the editor is a Python float
    ([float(weight_str)]).  This module is [dijkstra] and
    [add_edge_handler] on graphs whose weights are all floats, with the
    binary64 arithmetic of Rocq's primitive floats, which is Python's.
    The integers [0] that the code writes ([pq = [(0, start)]],
    [dist[start] = 0], [weight <= 0]) are the float [0]: Python converts
    them so in [+] and compares them as equal to it.  The queue is, as
    above, the list of its entries in increasing order; no two entries
    of a run compare equal and none is NaN, since an entry is pushed only
    after [new_dist < dist[neighbor]] held. *)
Module Float64.

(** Python's [e1 < e2] on tuples: the first components decide, unless
    they are [==]. *)
Definition tuple_lt (e1 e2 : float * string) : bool :=
  if (e1.1 =? e2.1)%float then String.ltb e1.2 e2.2
  else (e1.1 <? e2.1)%float.

Fixpoint heappush (x : float * string) (pq : list (float * string))
    : list (float * string) :=
  match pq with
  | [] => [x]
  | y :: pq' => if tuple_lt y x then y :: heappush x pq' else x :: pq
  end.

Definition heappop (pq : list (float * string))
    : option ((float * string) * list (float * string)) :=
  match pq with
  | [] => None
  | x :: pq' => Some (x, pq')
  end.

Record state := State {
  pq : list (float * string);
  dist : gmap string float;
  parent : gmap string (option string);
  visited : gset string
}.

Definition relax (curr_dist : float) (u : node) (nw : node * float)
    (st : state) : outcome state :=
  let '(neighbor, weight) := nw in
  if decide (neighbor ∈ visited st) then mret st
  else
    let new_dist := (curr_dist + weight)%float in
    d ← getitem (dist st) neighbor;
    if (new_dist <? d)%float
    then mret (State (heappush (new_dist, neighbor) (pq st))
                     (<[neighbor := new_dist]> (dist st))
                     (<[neighbor := Some u]> (parent st))
                     (visited st))
    else mret st.

Fixpoint relax_all (curr_dist : float) (u : node)
    (items : list (node * float)) (st : state) : outcome state :=
  match items with
  | [] => mret st
  | nw :: items' =>
      st' ← relax curr_dist u nw st; relax_all curr_dist u items' st'
  end.

Inductive control := Continue (st : state) | Break (st : state).

Definition loop_body (g : graph_of float) (target : node) (st : state)
    : outcome control :=
  match heappop (pq st) with
  | None => mret (Break st)
  | Some ((curr_dist, u), pq') =>
      if decide (u ∈ visited st)
      then mret (Continue (State pq' (dist st) (parent st) (visited st)))
      else
        let st := State pq' (dist st) (parent st) ({[u]} ∪ visited st) in
        if decide (u = target) then mret (Break st)
        else
          nbrs ← getitem g u;
          st' ← relax_all curr_dist u (map_to_list nbrs) st;
          mret (Continue st')
  end.

Fixpoint while_loop (fuel : nat) (g : graph_of float) (target : node)
    (st : state) : outcome state :=
  match fuel with
  | O => OutOfFuel
  | S fuel' =>
      c ← loop_body g target st;
      match c with
      | Continue st' => while_loop fuel' g target st'
      | Break st' => mret st'
      end
  end.

Definition init_state (g : graph_of float) (start : node) : state :=
  State [(0%float, start)]
        (<[start := 0%float]> ((λ _, infinity) <$> g))
        ((λ _, None) <$> g)
        ∅.

Definition dijkstra_fuel (fuel : nat) (g : graph_of float)
    (start target : node) : outcome (float * list node) :=
  if decide (start ∉ dom g ∨ target ∉ dom g) then mret (infinity, [])
  else
    st ← while_loop fuel g target (init_state g start);
    path ← reconstruct fuel (parent st) (Some target) [];
    let path := reverse path in
    d ← getitem (dist st) target;
    if (d =? infinity)%float then mret (infinity, []) else mret (d, path).

Definition dijkstra (g : graph_of float) (start target : node)
    : outcome (float * list node) :=
  dijkstra_fuel (fuel_bound g) g start target.

(** [add_edge_handler], with the weight as [float(weight_str)] returns
    it, [None] for the [ValueError]. *)
Definition add_edge_handler (node1 node2 : node) (weight : option float)
    (g : graph_of float) : outcome (graph_of float * dialog) :=
  if decide (node1 = EmptyString ∨ node2 = EmptyString)
  then mret (g, WarnEnterBothNodes)
  else match weight with
       | None => mret (g, ErrorWeightNotNumber)
       | Some w =>
           if (w <=? 0)%float then mret (g, ErrorWeightNotPositive)
           else g' ← add_edge node1 node2 w g; mret (g', InfoEdgeAdded)
       end.

(** A click on one of the two edit buttons, with the contents of the
    entry fields. *)
Inductive click :=
  | ClickAddEdge (node1 node2 : node) (weight : option float)
  | ClickRemoveEdge (node1 node2 : node).

(** The graph after the handler of a click has run. *)
Definition perform (c : click) (g : graph_of float)
    : outcome (graph_of float) :=
  match c with
  | ClickAddEdge node1 node2 weight =>
      r ← add_edge_handler node1 node2 weight g; mret r.1
  | ClickRemoveEdge node1 node2 =>
      r ← remove_edge_handler node1 node2 g; mret r.1
  end.

Fixpoint perform_all (cs : list click) (g : graph_of float)
    : outcome (graph_of float) :=
  match cs with
  | [] => mret g
  | c :: cs' => g' ← perform c g; perform_all cs' g'
  end.

(** The guard of [add_edge_handler] lets [w] through. *)
Definition accepted (w : float) : Prop := (w <=? 0)%float = false.

Definition weights_accepted (g : graph_of float) : Prop :=
  ∀ a b w, weight_of g a b = Some w → accepted w.

End Float64.


(** A-B of weight [2^53], B-C and C-D of weight 1. *)
Definition rounding_graph : graph_of float :=
  list_to_map
    [ ("A", list_to_map [("B", 9007199254740992%float)]);
      ("B", list_to_map [("A", 9007199254740992%float); ("C", 1%float)]);
      ("C", list_to_map [("B", 1%float); ("D", 1%float)]);
      ("D", list_to_map [("C", 1%float)]) ].

(** The rows of the "Path Details" of [find_route]: the loop over
    [range(len(path)-1)] with its running [total]; a row is
    [(node1, node2, weight, total)]. *)
Fixpoint path_details (g : graph) (path : list node) (total : Z)
    : outcome (list (node * node * Z * Z)) :=
  match path with
  | [] => mret []
  | node1 :: path' =>
      match path' with
      | [] => mret []
      | node2 :: _ =>
          m ← getitem g node1;
          weight ← getitem m node2;
          let total := total + weight in
          rows ← path_details g path' total;
          mret ((node1, node2, weight, total) :: rows)
      end
  end.

(** What [find_route] shows: a message box, the "no path" text, or the
    path with its distance and its detail rows. *)
Inductive route_report :=
  | RouteWarnSelectBoth
  | RouteErrorNodesMissing
  | RouteNoPath
  | RouteFound (path : list node) (d : distance)
      (details : list (node * node * Z * Z)).

(** [find_route], for the selected [start] and [target]. *)
Definition find_route (start target : node) (g : graph)
    : outcome route_report :=
  if decide (start = EmptyString ∨ target = EmptyString)
  then mret RouteWarnSelectBoth
  else if decide (start ∉ dom g ∨ target ∉ dom g)
  then mret RouteErrorNodesMissing
  else
    r ← dijkstra g start target;
    let '(d, path) := r in
    if decide (d = Inf) then mret RouteNoPath
    else rows ← path_details g path 0; mret (RouteFound path d rows).

(** The edges [visualize_graph] highlights for [path]:
    [[(path[i], path[i+1]) for i in range(len(path)-1)]], when the path
    has more than one node.  The default [path=None] is falsy like the
    empty list and is represented by it. *)
Fixpoint consecutive (path : list node) : list (node * node) :=
  match path with
  | [] => []
  | x :: path' =>
      match path' with
      | [] => []
      | y :: _ => (x, y) :: consecutive path'
      end
  end.

Definition path_edges (path : list node) : list (node * node) :=
  if decide (path ≠ [] ∧ (1 < length path)%nat) then consecutive path
  else [].

(** ** Specifications used by the theorems *)

(** The undirected invariant of the adjacency mapping. *)
Definition symmetric {V} (g : graph_of V) : Prop :=
  ∀ a b w, weight_of g a b = Some w ↔ weight_of g b a = Some w.

(** Every neighbour is itself a node of the graph. *)
Definition closed {V} (g : graph_of V) : Prop :=
  ∀ a b w, weight_of g a b = Some w → b ∈ dom g.

(** Every weight is strictly positive. *)
Definition positive_weights (g : graph) : Prop :=
  ∀ a b w, weight_of g a b = Some w → 0 < w.

(** [walk g s v W]: [v] is reached from [s] along edges of total weight
    [W]. *)
Inductive walk (g : graph) (s : node) : node → Z → Prop :=
  | walk_refl : walk g s s 0
  | walk_snoc y z W w :
      walk g s y W → weight_of g y z = Some w → walk g s z (W + w).

(** The total of the edge weights along a node sequence, as [find_route]
    adds them up; [None] if two consecutive nodes are not adjacent. *)
Fixpoint path_weight (g : graph) (p : list node) : option Z :=
  match p with
  | [] => Some 0
  | x :: p' =>
      match p' with
      | [] => Some 0
      | y :: _ => w ← weight_of g x y; W ← path_weight g p'; Some (w + W)
      end
  end.

(** [p] is a walk of the graph from [a] to [b] of total weight [W]. *)
Definition is_path (g : graph) (a b : node) (p : list node) (W : Z) : Prop :=
  head p = Some a ∧ last p = Some b ∧ path_weight g p = Some W.



(** Each row of the details adds its weight to the total of the row
    before, the first to [total]. *)
Fixpoint running_totals (total : Z) (rows : list (node * node * Z * Z))
    : Prop :=
  match rows with
  | [] => True
  | (_, _, weight, total') :: rows' =>
      total' = total + weight ∧ running_totals total' rows'
  end.

(** The total shown in the last row, [total] when there is no row. *)
Definition final_total (total : Z) (rows : list (node * node * Z * Z)) : Z :=
  from_option (λ r, r.2) total (last rows).

(** ** Invariants and measures used in the proofs *)

(** How the state after relaxing a list of adjacency entries relates to
    the state before. *)
Record relaxed (d : Z) (u : node) (items : list (node * Z))
    (st1 st2 : state) : Prop := {
  relaxed_visited : visited st2 = visited st1;
  relaxed_dom_dist : dom (dist st2) = dom (dist st1);
  relaxed_dom_parent :
    dom (parent st1) = dom (dist st1) → dom (parent st2) = dom (parent st1);
  relaxed_sorted :
    StronglySorted entry_le (pq st1) → StronglySorted entry_le (pq st2);
  relaxed_length : (length (pq st2) ≤ length (pq st1) + length items)%nat;
  relaxed_pq_old : ∀ e, e ∈ pq st1 → e ∈ pq st2;
  relaxed_pq_new : ∀ e, e ∈ pq st2 → e ∈ pq st1 ∨
    ∃ x w dx, e = (d + w, x) ∧ (x, w) ∈ items ∧ x ∉ visited st1
      ∧ dist st2 !! x = Some (Fin dx) ∧ dx ≤ d + w;
  relaxed_change : ∀ x,
    (dist st2 !! x = dist st1 !! x ∧ parent st2 !! x = parent st1 !! x) ∨
    (x ∉ visited st1 ∧ ∃ w old, (x, w) ∈ items
      ∧ dist st1 !! x = Some old ∧ lt_distance (d + w) old
      ∧ dist st2 !! x = Some (Fin (d + w))
      ∧ parent st2 !! x = Some (Some u)
      ∧ (d + w, x) ∈ pq st2);
  relaxed_edge : ∀ x w, (x, w) ∈ items → x ∉ visited st1 →
    ∃ dx, dist st2 !! x = Some (Fin dx) ∧ dx ≤ d + w
}.

(** The pushes the expansion of one node can still cause: none once it
    is visited, one per adjacency entry before. *)
Definition pending (vis : gset string) (km : string * gmap string Z) : nat :=
  if decide (km.1 ∈ vis) then 0%nat else size km.2.

(** The adjacency entries of all nodes outside [vis]. *)
Definition unexpanded (g : graph) (vis : gset string) : nat :=
  sum_list (pending vis <$> map_to_list g).

(** What decreases with every iteration of the queue loop. *)
Definition measure (g : graph) (st : state) : nat :=
  (length (pq st) + unexpanded g (visited st))%nat.

(** The visited nodes, most recent first: every parent pointer of a
    visited node leads to a node visited earlier. *)
Inductive ordered (parent : gmap string (option string))
    : list node → Prop :=
  | ordered_nil : ordered parent []
  | ordered_cons x l :
      ordered parent l → x ∉ l →
      (parent !! x = Some None ∨ ∃ p, parent !! x = Some (Some p) ∧ p ∈ l) →
      ordered parent (x :: l).

(** [chain parent x l]: following the parent pointers from [x] visits
    exactly [l] and then stops. *)
Inductive chain (parent : gmap string (option string))
    : node → list node → Prop :=
  | chain_root x : parent !! x = Some None → chain parent x [x]
  | chain_step x p l :
      parent !! x = Some (Some p) → chain parent p l →
      chain parent x (x :: l).

(** The invariant of the queue loop that holds on every graph, whatever
    the weights: the queue is sorted and agrees with [dist]; every finite
    tentative distance is the weight of a walk from [start]; a parent
    pointer leads to a visited node one edge closer to [start]; the
    parent pointers of the visited nodes follow the order of the visits. *)
Record inv_basic (g : graph) (start : node) (st : state) : Prop := {
  ib_start : start ∈ visited st ∨ st = init_state g start;
  ib_sorted : StronglySorted entry_le (pq st);
  ib_dom_dist : dom (dist st) = dom g;
  ib_dom_parent : dom (parent st) = dom g;
  ib_pq_dist : ∀ d v, (d, v) ∈ pq st →
    ∃ d', dist st !! v = Some (Fin d') ∧ d' ≤ d;
  ib_dist_pq : ∀ v d, v ∉ visited st → dist st !! v = Some (Fin d) →
    (d, v) ∈ pq st;
  ib_visited_dist : ∀ v, v ∈ visited st → ∃ d, dist st !! v = Some (Fin d);
  ib_walk : ∀ v d, dist st !! v = Some (Fin d) → walk g start v d;
  ib_parent : ∀ x p, parent st !! x = Some (Some p) →
    p ∈ visited st ∧ ∃ dp w, weight_of g p x = Some w
      ∧ dist st !! p = Some (Fin dp) ∧ dist st !! x = Some (Fin (dp + w));
  ib_root : ∀ x, parent st !! x = Some None →
    x = start ∨ dist st !! x = Some Inf;
  ib_dist_start : dist st !! start = Some (Fin 0);
  ib_order : ∃ order, ordered (parent st) order
    ∧ ∀ x, x ∈ order ↔ x ∈ visited st
}.

(** The state an iteration leaves behind, whether it continues or not. *)
Definition control_state (c : control) : state :=
  match c with Continue st | Break st => st end.

(** The part of the loop invariant that needs non-negative weights; it
    holds at the loop head, where [target] is not yet visited. *)
Record inv_opt (g : graph) (target : node) (st : state) : Prop := {
  io_target : target ∉ visited st;
  io_settled : ∀ u d x, u ∈ visited st → (d, x) ∈ pq st →
    ∃ du, dist st !! u = Some (Fin du) ∧ du ≤ d;
  io_edges : ∀ u v w, u ∈ visited st → weight_of g u v = Some w →
    ∃ du dv, dist st !! u = Some (Fin du) ∧ dist st !! v = Some (Fin dv)
      ∧ dv ≤ du + w
}.

(** * Proofs *)

(** ** The outcome monad *)

Lemma bind_Returns {A B} (m : outcome A) (f : A → outcome B) b :
  m ≫= f = Returns b ↔ ∃ a, m = Returns a ∧ f a = Returns b.
Proof.
  destruct m; simpl; split; try done; try (intros (? & ? & ?); done).
  - eauto.
  - by intros (? & [= <-] & ?).
Qed.

Lemma bind_Returns_l {A B} (m : outcome A) (f : A → outcome B) a :
  m = Returns a → m ≫= f = f a.
Proof. by intros ->. Qed.

Lemma outcome_bind_assoc {A B C} (m : outcome A) (f : A → outcome B)
    (h : B → outcome C) :
  (m ≫= f) ≫= h = m ≫= (λ a, f a ≫= h).
Proof. by destruct m. Qed.

Lemma getitem_Returns {K} `{Countable K} {V} (d : gmap K V) k v :
  getitem d k = Returns v ↔ d !! k = Some v.
Proof. unfold getitem. destruct (d !! k); naive_solver. Qed.

Lemma getitem_not_OutOfFuel {K} `{Countable K} {V} (d : gmap K V) k :
  getitem d k ≠ OutOfFuel.
Proof. unfold getitem. by destruct (d !! k). Qed.

(** ** Edge mutation *)

Lemma weight_of_Some {V} (g : graph_of V) a b w :
  weight_of g a b = Some w ↔ ∃ m, g !! a = Some m ∧ m !! b = Some w.
Proof.
  unfold weight_of. destruct (g !! a) as [m|]; simpl; naive_solver.
Qed.

Lemma weight_of_insert {V} (g : graph_of V) a m x y :
  weight_of (<[a := m]> g) x y
  = if decide (a = x) then m !! y else weight_of g x y.
Proof.
  unfold weight_of. rewrite lookup_insert. by case_decide.
Qed.

Lemma symmetric_closed {V} (g : graph_of V) : symmetric g → closed g.
Proof.
  intros Hs a b w Hab. apply Hs in Hab.
  apply weight_of_Some in Hab as (m & Hm & _). by apply elem_of_dom.
Qed.

(** [add_edge] always returns; afterwards both endpoints are nodes, the
    two directed entries of the edge carry the new weight, and nothing
    else differs. *)
Lemma add_edge_spec {V} a b (w : V) (g : graph_of V) :
  ∃ g', add_edge a b w g = Returns g'
    ∧ dom g' = {[a; b]} ∪ dom g
    ∧ ∀ x y, weight_of g' x y
        = if decide ((x = a ∧ y = b) ∨ (x = b ∧ y = a)) then Some w
          else weight_of g x y.
Proof.
  unfold add_edge.
  set (g1 := if decide (a ∈ dom g) then g else <[a := ∅]> g).
  assert (dom g1 = {[a]} ∪ dom g) as Hd1.
  { subst g1. case_decide; [set_solver|]. by rewrite dom_insert_L. }
  assert (∀ x y, weight_of g1 x y = weight_of g x y) as Hw1.
  { intros x y. subst g1. case_decide as Ha; [done|].
    rewrite weight_of_insert. case_decide as Hx; [|done]. subst x.
    apply not_elem_of_dom in Ha. unfold weight_of. by rewrite Ha. }
  clearbody g1.
  set (g2 := if decide (b ∈ dom g1) then g1 else <[b := ∅]> g1).
  assert (dom g2 = {[a; b]} ∪ dom g) as Hd2.
  { subst g2. case_decide; [set_solver|]. rewrite dom_insert_L. set_solver. }
  assert (∀ x y, weight_of g2 x y = weight_of g x y) as Hw2.
  { intros x y. rewrite <-Hw1. subst g2. case_decide as Hb; [done|].
    rewrite weight_of_insert. case_decide as Hx; [|done]. subst x.
    apply not_elem_of_dom in Hb. unfold weight_of. by rewrite Hb. }
  clearbody g2. clear g1 Hd1 Hw1.
  assert (is_Some (g2 !! a)) as [m1 Hm1] by (apply elem_of_dom; set_solver).
  rewrite (bind_Returns_l _ _ m1); [|by apply getitem_Returns].
  cbn zeta.
  assert (is_Some (<[a := <[b := w]> m1]> g2 !! b)) as [m2 Hm2].
  { apply elem_of_dom. rewrite dom_insert_L. set_solver. }
  rewrite (bind_Returns_l _ _ m2); [|by apply getitem_Returns].
  eexists; split; [done|]. split.
  { rewrite !dom_insert_L. set_solver. }
  intros x y. rewrite !weight_of_insert.
  rewrite lookup_insert in Hm2.
  specialize (Hw2 x y). unfold weight_of in Hw2.
  repeat case_decide; simplify_eq; simplify_map_eq;
    rewrite ?lookup_insert; repeat case_decide; try naive_solver.
Qed.

(** [remove_edge] always returns; it leaves the set of nodes alone, clears
    the two directed entries of the edge and changes nothing else. *)
Lemma remove_edge_spec {V} a b (g : graph_of V) :
  ∃ g', remove_edge a b g = Returns g'
    ∧ dom g' = dom g
    ∧ (∀ x y, weight_of g' x y
        = if decide ((x = a ∧ y = b) ∨ (x = b ∧ y = a)) then None
          else weight_of g x y)
    ∧ (weight_of g a b = None → weight_of g b a = None → g' = g).
Proof.
  unfold remove_edge.
  set (r1 := match g !! a with Some m1 => _ | None => _ end).
  assert (∃ g1, r1 = Returns g1 ∧ dom g1 = dom g
    ∧ (∀ x y, weight_of g1 x y
         = if decide (x = a ∧ y = b) then None else weight_of g x y)
    ∧ (weight_of g a b = None → g1 = g)) as (g1 & -> & Hd1 & Hw1 & Hn1).
  { subst r1. destruct (g !! a) as [m1|] eqn:Ha.
    - case_decide as Hb.
      + apply elem_of_dom in Hb as [w Hb]. unfold delitem. rewrite Hb. simpl.
        eexists; split; [done|]. split; [|split].
        * rewrite dom_insert_L. apply elem_of_dom_2 in Ha. set_solver.
        * intros x y. rewrite weight_of_insert.
          repeat case_decide; destruct_and?; simplify_eq; try naive_solver.
          -- by rewrite lookup_delete_eq.
          -- rewrite lookup_delete_ne by naive_solver.
             unfold weight_of. by rewrite Ha.
        * unfold weight_of. rewrite Ha. simpl. congruence.
      + eexists; split; [done|]. split; [done|]. split; [|done].
        intros x y. case_decide as Hxy; [|done]. destruct Hxy as [-> ->].
        unfold weight_of. rewrite Ha. simpl. by apply not_elem_of_dom.
    - eexists; split; [done|]. split; [done|]. split; [|done].
      intros x y. case_decide as Hxy; [|done]. destruct Hxy as [-> ->].
      unfold weight_of. by rewrite Ha. }
  simpl.
  destruct (g1 !! b) as [m2|] eqn:Hb.
  - case_decide as Ha.
    + apply elem_of_dom in Ha as [w Ha]. unfold delitem. rewrite Ha. simpl.
      eexists; split; [done|]. split; [|split].
      * rewrite dom_insert_L. apply elem_of_dom_2 in Hb. set_solver.
      * intros x y. rewrite weight_of_insert.
        destruct (decide (b = x)) as [<-|Hx].
        -- destruct (decide (y = a)) as [->|Hy].
           { rewrite lookup_delete_eq. by rewrite decide_True by auto. }
           rewrite lookup_delete_ne by done.
           rewrite decide_False by naive_solver.
           specialize (Hw1 b y). rewrite decide_False in Hw1 by naive_solver.
           rewrite <-Hw1. unfold weight_of. by rewrite Hb.
        -- rewrite Hw1. repeat case_decide; naive_solver.
      * intros Hab Hba. specialize (Hn1 Hab). subst g1.
        unfold weight_of in Hba. rewrite Hb in Hba. simpl in Hba. congruence.
    + eexists; split; [done|]. split; [done|]. split; [|by auto].
      intros x y. rewrite Hw1. repeat case_decide; try naive_solver.
      assert (x = b ∧ y = a) as [-> ->] by naive_solver.
      pose proof (Hw1 b a) as Hw. rewrite decide_False in Hw by done.
      rewrite <-Hw. unfold weight_of. rewrite Hb. simpl.
      by apply not_elem_of_dom.
  - eexists; split; [done|]. split; [done|]. split; [|by auto].
    intros x y. rewrite Hw1. repeat case_decide; try naive_solver.
    assert (x = b ∧ y = a) as [-> ->] by naive_solver.
    pose proof (Hw1 b a) as Hw. rewrite decide_False in Hw by done.
    rewrite <-Hw. unfold weight_of. by rewrite Hb.
Qed.

(** ** The priority queue *)

Global Instance entry_le_refl : Reflexive entry_le.
Proof. intros [d x]. right. split; [done|]. simpl. reflexivity. Qed.

Global Instance entry_le_trans : Transitive entry_le.
Proof.
  intros [d1 x1] [d2 x2] [d3 x3]. unfold entry_le. simpl.
  intros [?|[-> H12]] [?|[-> H23]]; try (left; lia).
  right. split; [done|]. by etrans.
Qed.

Lemma entry_le_total e1 e2 : entry_le e1 e2 ∨ entry_le e2 e1.
Proof.
  destruct e1 as [d1 x1], e2 as [d2 x2]. unfold entry_le. simpl.
  destruct (Z.lt_total d1 d2) as [?|[->|?]]; [by left; left| |by right; left].
  destruct (total String.le x1 x2); [left|right]; by right.
Qed.

Lemma entry_le_antisym e1 e2 : entry_le e1 e2 → entry_le e2 e1 → e1 = e2.
Proof.
  destruct e1 as [d1 x1], e2 as [d2 x2]. unfold entry_le. simpl.
  intros [?|[-> H12]] [?|[? H21]]; try lia.
  f_equal. by apply (anti_symm String.le).
Qed.

Lemma entry_le_fst e1 e2 : entry_le e1 e2 → e1.1 ≤ e2.1.
Proof. unfold entry_le. lia. Qed.

Lemma elem_of_heappush e x pq0 : e ∈ heappush x pq0 ↔ e = x ∨ e ∈ pq0.
Proof.
  induction pq0 as [|y pq0 IH]; simpl.
  - rewrite list_elem_of_singleton, elem_of_nil. tauto.
  - case_decide; rewrite !elem_of_cons; [done|]. rewrite IH. tauto.
Qed.

Lemma length_heappush x pq0 : length (heappush x pq0) = S (length pq0).
Proof.
  induction pq0 as [|y pq0 IH]; simpl; [done|].
  case_decide; simpl; by rewrite ?IH.
Qed.

Lemma heappush_sorted x pq0 :
  StronglySorted entry_le pq0 → StronglySorted entry_le (heappush x pq0).
Proof.
  induction 1 as [|y pq0 Hs IH Hy]; simpl.
  - by repeat constructor.
  - case_decide as Hxy.
    + constructor; [by constructor|]. constructor; [done|].
      eapply Forall_impl; [done|]. intros z Hz. by etrans.
    + constructor; [done|]. apply Forall_forall. intros z Hz.
      apply elem_of_heappush in Hz as [->|Hz].
      * by destruct (entry_le_total x y).
      * by eapply Forall_forall in Hy.
Qed.

(** The queue is determined by the multiset of its entries, not by the
    order in which they were pushed. *)
Lemma heappush_comm x y pq0 :
  heappush x (heappush y pq0) = heappush y (heappush x pq0).
Proof.
  induction pq0 as [|z pq0 IH]; simpl.
  - repeat case_decide; try done.
    + by rewrite (entry_le_antisym x y).
    + by destruct (entry_le_total x y).
  - destruct (decide (entry_le y z)) as [Hyz|Hyz],
      (decide (entry_le x z)) as [Hxz|Hxz]; simpl;
      repeat case_decide; try done.
    + by rewrite (entry_le_antisym x y).
    + by destruct (entry_le_total x y).
    + destruct Hxz. by etrans.
    + destruct Hyz. by etrans.
    + by rewrite IH.
Qed.

Lemma sorted_head_le x pq0 e :
  StronglySorted entry_le (x :: pq0) → e ∈ x :: pq0 → entry_le x e.
Proof.
  intros Hs He. apply StronglySorted_inv in Hs as [_ Hall].
  apply elem_of_cons in He as [->|He]; [reflexivity|].
  by eapply Forall_forall in Hall.
Qed.

(** ** Relaxation *)

Lemma lt_distance_le_trans a b d : a ≤ b → lt_distance b d → lt_distance a d.
Proof. destruct d; simpl; [lia|done]. Qed.

Lemma relaxed_decrease d u items st1 st2 x dx :
  relaxed d u items st1 st2 → dist st1 !! x = Some (Fin dx) →
  ∃ dx', dist st2 !! x = Some (Fin dx') ∧ dx' ≤ dx.
Proof.
  intros Hr Hx. destruct (relaxed_change _ _ _ _ _ Hr x)
    as [[Hd _]|(_ & w & old & _ & Hold & Hlt & Hd & _)].
  - exists dx. by rewrite Hd.
  - rewrite Hx in Hold. injection Hold as <-. simpl in Hlt.
    exists (d + w). split; [done|lia].
Qed.

Lemma relaxed_nil d u st : relaxed d u [] st st.
Proof.
  split; try done.
  - simpl. lia.
  - by left.
  - by left.
  - intros x w Hx. by apply elem_of_nil in Hx.
Qed.

Lemma relax_relaxed d u x w st1 st2 :
  relax d u (x, w) st1 = Returns st2 → relaxed d u [(x, w)] st1 st2.
Proof.
  unfold relax. case_decide as Hv.
  { intros [= <-]. split.
    - done.
    - done.
    - done.
    - done.
    - simpl. lia.
    - done.
    - by left.
    - by left.
    - by intros x' w' [= -> ->]%list_elem_of_singleton. }
  intros (old & Hold%getitem_Returns & Hst)%bind_Returns.
  case_decide as Hlt; injection Hst as <-.
  - split; simpl.
    + done.
    + rewrite dom_insert_L. apply elem_of_dom_2 in Hold. set_solver.
    + intros Hdom. rewrite dom_insert_L, Hdom.
      apply elem_of_dom_2 in Hold. set_solver.
    + apply heappush_sorted.
    + rewrite length_heappush. lia.
    + intros e He. apply elem_of_heappush. by right.
    + intros e [->|He]%elem_of_heappush; [|by left]. right.
      exists x, w, (d + w). rewrite lookup_insert_eq.
      rewrite list_elem_of_singleton. split_and!; first [done|lia].
    + intros x'. destruct (decide (x' = x)) as [->|Hne].
      * right. split; [done|]. exists w, old.
        rewrite !lookup_insert_eq, list_elem_of_singleton, elem_of_heappush.
        split_and!; auto.
      * left. by rewrite !lookup_insert_ne.
    + intros x' w' [= -> ->]%list_elem_of_singleton _.
      exists (d + w). rewrite lookup_insert_eq. split; [done|lia].
  - split.
    + done.
    + done.
    + done.
    + done.
    + simpl. lia.
    + done.
    + by left.
    + by left.
    + intros x' w' [= -> ->]%list_elem_of_singleton _.
      destruct old as [dx|]; [|by destruct Hlt].
      exists dx. split; [done|]. simpl in Hlt. lia.
Qed.

Global Arguments relax : simpl never.

Lemma relaxed_cons d u nw items st1 st2 st3 :
  relaxed d u [nw] st1 st2 → relaxed d u items st2 st3 →
  relaxed d u (nw :: items) st1 st3.
Proof.
  intros H1 H2. split.
  - by rewrite (relaxed_visited _ _ _ _ _ H2), (relaxed_visited _ _ _ _ _ H1).
  - by rewrite (relaxed_dom_dist _ _ _ _ _ H2), (relaxed_dom_dist _ _ _ _ _ H1).
  - intros Hdom.
    rewrite (relaxed_dom_parent _ _ _ _ _ H2), (relaxed_dom_parent _ _ _ _ _ H1);
      [done..|].
    by rewrite (relaxed_dom_parent _ _ _ _ _ H1), (relaxed_dom_dist _ _ _ _ _ H1).
  - intros Hs. by apply (relaxed_sorted _ _ _ _ _ H2), (relaxed_sorted _ _ _ _ _ H1).
  - pose proof (relaxed_length _ _ _ _ _ H1).
    pose proof (relaxed_length _ _ _ _ _ H2). simpl in *. lia.
  - intros e He. by apply (relaxed_pq_old _ _ _ _ _ H2), (relaxed_pq_old _ _ _ _ _ H1).
  - intros e He.
    destruct (relaxed_pq_new _ _ _ _ _ H2 e He)
      as [He'|(x & w & dx & -> & Hin & Hv & Hd & Hle)].
    + destruct (relaxed_pq_new _ _ _ _ _ H1 e He')
        as [?|(x & w & dx & -> & Hin & Hv & Hd & Hle)]; [by left|right].
      destruct (relaxed_decrease _ _ _ _ _ _ _ H2 Hd) as (dx' & Hd' & Hle').
      exists x, w, dx'. split_and!; [done| |done|done|lia].
      apply list_elem_of_singleton in Hin as ->. by left.
    + right. exists x, w, dx. split_and!; [done| |  |done|done].
      * by right.
      * by rewrite <-(relaxed_visited _ _ _ _ _ H1).
  - intros x.
    destruct (relaxed_change _ _ _ _ _ H2 x)
      as [[Hd2 Hp2]|(Hv & w & old & Hin & Hold & Hlt & Hd & Hp & Hq)].
    + destruct (relaxed_change _ _ _ _ _ H1 x)
        as [[Hd1 Hp1]|(Hv & w & old & Hin & Hold & Hlt & Hd & Hp & Hq)].
      * left. by rewrite Hd2, Hp2.
      * right. split; [done|]. exists w, old. rewrite Hd2, Hp2.
        split_and!; try done.
        -- apply list_elem_of_singleton in Hin as ->. by left.
        -- by apply (relaxed_pq_old _ _ _ _ _ H2).
    + right. rewrite (relaxed_visited _ _ _ _ _ H1) in Hv. split; [done|].
      destruct (relaxed_change _ _ _ _ _ H1 x)
        as [[Hd1 Hp1]|(_ & w1 & old1 & Hin1 & Hold1 & Hlt1 & Hd1 & _)].
      * exists w, old. rewrite <-Hd1. split_and!; try done. by right.
      * exists w, old1. rewrite Hd1 in Hold. injection Hold as <-.
        simpl in Hlt. split_and!; try done; [by right|].
        eapply lt_distance_le_trans; [|done]. lia.
  - intros x w [<-|Hin]%elem_of_cons Hv.
    + destruct (relaxed_edge _ _ _ _ _ H1 x w) as (dx & Hd & Hle);
        [by left|done|].
      destruct (relaxed_decrease _ _ _ _ _ _ _ H2 Hd) as (dx' & Hd' & Hle').
      exists dx'. split; [done|lia].
    + apply (relaxed_edge _ _ _ _ _ H2); [done|].
      by rewrite (relaxed_visited _ _ _ _ _ H1).
Qed.

Lemma relax_all_relaxed d u items st1 st2 :
  relax_all d u items st1 = Returns st2 → relaxed d u items st1 st2.
Proof.
  revert st1. induction items as [|[x w] items IH]; intros st1; simpl.
  - intros [= <-]. apply relaxed_nil.
  - intros (st' & Hst' & Hst2)%bind_Returns.
    eapply relaxed_cons; [by apply relax_relaxed|by apply IH].
Qed.

Lemma relax_not_OutOfFuel d u nw st : relax d u nw st ≠ OutOfFuel.
Proof.
  unfold relax. destruct nw as [x w]. case_decide; [done|].
  unfold getitem. destruct (dist st !! x); simpl; [|done]. by case_decide.
Qed.

Lemma relax_all_not_OutOfFuel d u items st :
  relax_all d u items st ≠ OutOfFuel.
Proof.
  revert st. induction items as [|nw items IH]; intros st; simpl; [done|].
  pose proof (relax_not_OutOfFuel d u nw st).
  destruct (relax d u nw st); simpl; [apply IH|done|done].
Qed.

(** Relaxation raises only on a neighbour that is unvisited and has no
    entry in [dist]. *)
Lemma relax_all_returns d u items st :
  (∀ x w, (x, w) ∈ items → x ∉ visited st → x ∈ dom (dist st)) →
  ∃ st', relax_all d u items st = Returns st'.
Proof.
  revert st. induction items as [|[x w] items IH]; intros st Hdom; simpl.
  - by eexists.
  - assert (∃ st', relax d u (x, w) st = Returns st') as [st' Hst'].
    { unfold relax. case_decide as Hv; [by eexists|].
      assert (x ∈ dom (dist st)) as [old Hold]%elem_of_dom
        by (apply (Hdom x w); [by left|done]).
      unfold getitem. rewrite Hold. simpl. case_decide; by eexists. }
    rewrite Hst'. simpl. apply IH. intros x' w' Hin Hv.
    apply relax_relaxed in Hst'.
    rewrite (relaxed_dom_dist _ _ _ _ _ Hst').
    rewrite (relaxed_visited _ _ _ _ _ Hst') in Hv.
    apply (Hdom x' w'); [by right|done].
Qed.

(** The order in which the adjacency entries of a node are relaxed does
    not matter: distinct neighbours touch distinct keys of [dist] and
    [parent], and the queue is determined by its contents. *)
Lemma relax_comm d u x1 w1 x2 w2 st :
  x1 ≠ x2 →
  relax d u (x1, w1) st ≫= relax d u (x2, w2)
  = relax d u (x2, w2) st ≫= relax d u (x1, w1).
Proof.
  intros Hne. unfold relax, getitem.
  destruct (decide (x1 ∈ visited st)) as [Hv1|Hv1],
    (decide (x2 ∈ visited st)) as [Hv2|Hv2],
    (dist st !! x1) as [old1|] eqn:H1,
    (dist st !! x2) as [old2|] eqn:H2; simpl;
    rewrite ?decide_True by done; rewrite ?decide_False by done;
    rewrite ?H1, ?H2; simpl; try done;
    try destruct (decide (lt_distance (d + w1) old1)) as [Hl1|Hl1];
    try destruct (decide (lt_distance (d + w2) old2)) as [Hl2|Hl2]; simpl;
    rewrite ?decide_True by done; rewrite ?decide_False by done;
    rewrite ?lookup_insert_ne by done; rewrite ?H1, ?H2; simpl;
    rewrite ?decide_True by done; rewrite ?decide_False by done;
    repeat case_decide; try done.
  rewrite heappush_comm. f_equal. f_equal; by apply insert_insert_ne.
Qed.

Lemma relax_all_perm d u items1 items2 st :
  NoDup items1.*1 → items1 ≡ₚ items2 →
  relax_all d u items1 st = relax_all d u items2 st.
Proof.
  intros Hnd Hp. revert st. induction Hp as [|nw l1 l2 Hp IH|[x1 w1] [x2 w2] l|l1 l2 l3 Hp1 IH1 Hp2 IH2];
    intros st.
  - done.
  - simpl. apply NoDup_cons in Hnd as [_ Hnd].
    destruct (relax d u nw st); simpl; auto.
  - simpl. apply NoDup_cons in Hnd as [Hnd _].
    assert (x2 ≠ x1) as Hne by (intros ->; apply Hnd; by left).
    rewrite <-!outcome_bind_assoc.
    by rewrite (relax_comm d u x2 w2 x1 w1 st Hne).
  - rewrite IH1 by done. apply IH2. by rewrite <-Hp1.
Qed.

(** ** Termination of the queue loop *)

Global Arguments loop_body : simpl never.

Lemma pending_absent (l : list (string * gmap string Z)) vis u :
  u ∉ l.*1 →
  sum_list (pending ({[u]} ∪ vis) <$> l) = sum_list (pending vis <$> l).
Proof.
  induction l as [|[k m] l IH]; csimpl; [done|].
  intros [Hk Hl]%not_elem_of_cons. rewrite IH by done. f_equal.
  unfold pending. simpl. repeat case_decide; set_solver.
Qed.

Lemma pending_visit (l : list (string * gmap string Z)) vis u m :
  NoDup l.*1 → (u, m) ∈ l → u ∉ vis →
  sum_list (pending vis <$> l)
  = (size m + sum_list (pending ({[u]} ∪ vis) <$> l))%nat.
Proof.
  induction l as [|[k m'] l IH]; csimpl.
  { by intros _ ?%elem_of_nil. }
  intros [Hk Hnd]%NoDup_cons [[= <- <-]|Hin]%elem_of_cons Hu.
  - rewrite pending_absent by done. unfold pending. simpl.
    rewrite decide_False by done. rewrite decide_True by set_solver. lia.
  - rewrite (IH Hnd Hin Hu).
    assert (k ≠ u) as Hne.
    { intros ->. apply Hk. apply list_elem_of_fmap. by exists (u, m). }
    unfold pending at 1 3. simpl. repeat case_decide; set_solver by lia.
Qed.

Lemma unexpanded_visit (g : graph) vis u m :
  g !! u = Some m → u ∉ vis →
  unexpanded g vis = (size m + unexpanded g ({[u]} ∪ vis))%nat.
Proof.
  intros Hu Hv. unfold unexpanded. apply pending_visit; [|by apply elem_of_map_to_list|done].
  apply NoDup_fst_map_to_list.
Qed.

Lemma unexpanded_empty (g : graph) : unexpanded g ∅ = total_degree g.
Proof.
  unfold unexpanded, total_degree. apply (f_equal sum_list), list_fmap_ext.
  intros i [k m] _. unfold pending. rewrite decide_False; set_solver.
Qed.

Lemma loop_body_not_OutOfFuel g target st : loop_body g target st ≠ OutOfFuel.
Proof.
  unfold loop_body. destruct (heappop (pq st)) as [[[d u] pq']|]; [|done].
  case_decide; [done|]. case_decide; [done|].
  unfold getitem. destruct (g !! u) as [nbrs|]; simpl; [|done].
  match goal with |- context [relax_all ?a ?b ?c ?s] =>
    pose proof (relax_all_not_OutOfFuel a b c s) as Hr;
    destruct (relax_all a b c s) end; done.
Qed.

Lemma loop_body_measure g target st st' :
  loop_body g target st = Returns (Continue st') →
  (measure g st' < measure g st)%nat.
Proof.
  unfold loop_body, measure.
  destruct (pq st) as [|[d u] pq'] eqn:Hpq; simpl; [done|].
  case_decide as Hv.
  { intros [= <-]. simpl. lia. }
  case_decide; [done|].
  intros (nbrs & Hu%getitem_Returns & (st2 & Hr & [= <-])%bind_Returns)%bind_Returns.
  apply relax_all_relaxed in Hr.
  pose proof (relaxed_length _ _ _ _ _ Hr) as Hlen.
  rewrite (relaxed_visited _ _ _ _ _ Hr). simpl in *.
  rewrite length_map_to_list in Hlen.
  rewrite (unexpanded_visit g (visited st) u nbrs) by done. lia.
Qed.

Lemma while_loop_terminates g target fuel st :
  (measure g st < fuel)%nat → while_loop fuel g target st ≠ OutOfFuel.
Proof.
  revert st. induction fuel as [|fuel IH]; intros st Hm; [lia|]. simpl.
  pose proof (loop_body_not_OutOfFuel g target st).
  destruct (loop_body g target st) as [[st'|st']| |] eqn:Hb; simpl; try done.
  apply IH. apply loop_body_measure in Hb. lia.
Qed.

Lemma while_loop_fuel_mono g target n m st :
  while_loop n g target st ≠ OutOfFuel → (n ≤ m)%nat →
  while_loop m g target st = while_loop n g target st.
Proof.
  revert m st. induction n as [|n IH]; intros m st Hn Hle; [done|].
  destruct m as [|m]; [lia|]. simpl in *.
  destruct (loop_body g target st) as [[st'|st']| |]; simpl in *; try done.
  apply IH; [done|lia].
Qed.

(** The loop rule: an invariant kept by every iteration that continues
    and turned into the postcondition by every exit holds on return. *)
Lemma while_loop_rule (P Q : state → Prop) g target fuel st st' :
  (∀ s s', P s → loop_body g target s = Returns (Continue s') → P s') →
  (∀ s s', P s → loop_body g target s = Returns (Break s') → Q s') →
  P st → while_loop fuel g target st = Returns st' → Q st'.
Proof.
  intros Hcont Hbreak. revert st.
  induction fuel as [|fuel IH]; intros st HP; simpl; [done|].
  intros ([s|s] & Hb & Hw)%bind_Returns.
  - eapply IH; [|done]. by eapply Hcont.
  - injection Hw as <-. by eapply Hbreak.
Qed.

(** If moreover iterations never raise from states satisfying the
    invariant, the loop returns. *)
Lemma while_loop_returns (P : state → Prop) g target fuel st :
  (∀ s s', P s → loop_body g target s = Returns (Continue s') → P s') →
  (∀ s, P s → ∃ c, loop_body g target s = Returns c) →
  P st → (measure g st < fuel)%nat →
  ∃ st', while_loop fuel g target st = Returns st'.
Proof.
  intros Hcont Hret. revert st.
  induction fuel as [|fuel IH]; intros st HP Hm; [lia|]. simpl.
  destruct (Hret st HP) as [[s|s] Hb]; rewrite Hb; simpl.
  - apply IH; [by eapply Hcont|]. apply loop_body_measure in Hb. lia.
  - by eexists.
Qed.

(** ** The loop invariant, for every graph *)

Lemma init_state_dist (g : graph) start x :
  dist (init_state g start) !! x
  = if decide (start = x) then Some (Fin 0) else (λ _, Inf) <$> g !! x.
Proof.
  simpl. rewrite lookup_insert. case_decide; [done|]. by rewrite lookup_fmap.
Qed.

Lemma init_state_parent (g : graph) start x :
  parent (init_state g start) !! x = (λ _, None) <$> g !! x.
Proof. simpl. by rewrite lookup_fmap. Qed.

Lemma inv_basic_init (g : graph) start :
  start ∈ dom g → inv_basic g start (init_state g start).
Proof.
  intros Hs. split.
  - by right.
  - simpl. by repeat constructor.
  - simpl. rewrite dom_insert_L, dom_fmap_L. set_solver.
  - simpl. by rewrite dom_fmap_L.
  - intros d v [= -> ->]%list_elem_of_singleton. exists 0.
    rewrite init_state_dist, decide_True by done. done.
  - intros v d _. rewrite init_state_dist. case_decide as Hv.
    + intros [= <-]. subst v. simpl. by left.
    + by destruct (g !! v).
  - intros v Hv. simpl in Hv. set_solver.
  - intros v d. rewrite init_state_dist. case_decide as Hv.
    + intros [= <-]. subst v. constructor.
    + by destruct (g !! v).
  - intros x p. rewrite init_state_parent. by destruct (g !! x).
  - intros x. rewrite init_state_parent, init_state_dist.
    case_decide; [by left|]. destruct (g !! x); [by right|done].
  - by rewrite init_state_dist, decide_True.
  - exists []. split; [constructor|]. simpl. set_solver.
Qed.

Lemma ordered_ext parent1 parent2 l :
  (∀ x, x ∈ l → parent2 !! x = parent1 !! x) →
  ordered parent1 l → ordered parent2 l.
Proof.
  intros Hext Ho. induction Ho as [|x l Ho IH Hx Hp]; [constructor|].
  constructor.
  - apply IH. intros y Hy. apply Hext. by right.
  - done.
  - rewrite Hext by (by left). done.
Qed.

(** The entry popped for a node not yet visited carries its current
    tentative distance. *)
Lemma popped_dist g start st d u pq' :
  inv_basic g start st → pq st = (d, u) :: pq' → u ∉ visited st →
  dist st !! u = Some (Fin d).
Proof.
  intros Hi Hpq Hv.
  destruct (ib_pq_dist _ _ _ Hi d u) as (du & Hdu & Hle).
  { rewrite Hpq. by left. }
  pose proof (ib_dist_pq _ _ _ Hi u du Hv Hdu) as Hin.
  pose proof (ib_sorted _ _ _ Hi) as Hs. rewrite Hpq in Hs, Hin.
  apply (sorted_head_le _ _ _ Hs), entry_le_fst in Hin. simpl in Hin.
  rewrite Hdu. do 2 f_equal. lia.
Qed.

(** Popping a stale entry. *)
Lemma inv_basic_stale g start st d u pq' :
  inv_basic g start st → pq st = (d, u) :: pq' → u ∈ visited st →
  inv_basic g start (State pq' (dist st) (parent st) (visited st)).
Proof.
  intros Hi Hpq Hv. split; simpl.
  - left. destruct (ib_start _ _ _ Hi) as [?| ->]; [done|]. simpl in Hv. set_solver.
  - pose proof (ib_sorted _ _ _ Hi) as Hs. rewrite Hpq in Hs.
    by apply StronglySorted_inv in Hs as [? _].
  - apply (ib_dom_dist _ _ _ Hi).
  - apply (ib_dom_parent _ _ _ Hi).
  - intros d' v Hin. apply (ib_pq_dist _ _ _ Hi). rewrite Hpq. by right.
  - intros v d' Hv' Hd. pose proof (ib_dist_pq _ _ _ Hi v d' Hv' Hd) as Hin.
    rewrite Hpq in Hin. apply elem_of_cons in Hin as [[= -> ->]|Hin]; done.
  - apply (ib_visited_dist _ _ _ Hi).
  - apply (ib_walk _ _ _ Hi).
  - apply (ib_parent _ _ _ Hi).
  - apply (ib_root _ _ _ Hi).
  - apply (ib_dist_start _ _ _ Hi).
  - apply (ib_order _ _ _ Hi).
Qed.

(** Popping a node for the first time and marking it visited. *)
Lemma inv_basic_visit g start st d u pq' :
  inv_basic g start st → pq st = (d, u) :: pq' → u ∉ visited st →
  inv_basic g start (State pq' (dist st) (parent st) ({[u]} ∪ visited st)).
Proof.
  intros Hi Hpq Hv.
  pose proof (popped_dist _ _ _ _ _ _ Hi Hpq Hv) as Hdu.
  split; simpl.
  - left. destruct (ib_start _ _ _ Hi) as [?| ->]; [set_solver|].
    simpl in Hpq. injection Hpq as _ <- _. set_solver.
  - pose proof (ib_sorted _ _ _ Hi) as Hs. rewrite Hpq in Hs.
    by apply StronglySorted_inv in Hs as [? _].
  - apply (ib_dom_dist _ _ _ Hi).
  - apply (ib_dom_parent _ _ _ Hi).
  - intros d' v Hin. apply (ib_pq_dist _ _ _ Hi). rewrite Hpq. by right.
  - intros v d' Hv' Hd.
    assert (v ∉ visited st) as Hv'' by set_solver.
    pose proof (ib_dist_pq _ _ _ Hi v d' Hv'' Hd) as Hin.
    rewrite Hpq in Hin. apply elem_of_cons in Hin as [[= -> ->]|Hin]; [|done].
    set_solver.
  - intros v [->%elem_of_singleton|Hv']%elem_of_union; [by eexists|].
    by apply (ib_visited_dist _ _ _ Hi).
  - apply (ib_walk _ _ _ Hi).
  - intros x p Hp. destruct (ib_parent _ _ _ Hi x p Hp) as [? ?].
    split; [set_solver|done].
  - apply (ib_root _ _ _ Hi).
  - apply (ib_dist_start _ _ _ Hi).
  - destruct (ib_order _ _ _ Hi) as (order & Ho & Hmem).
    exists (u :: order). split.
    + constructor; [done|by rewrite Hmem|].
      assert (u ∈ dom (parent st)) as [[p|] Hp]%elem_of_dom.
      { rewrite (ib_dom_parent _ _ _ Hi), <-(ib_dom_dist _ _ _ Hi).
        by apply elem_of_dom_2 in Hdu. }
      * right. exists p. split; [done|]. apply Hmem.
        by apply (ib_parent _ _ _ Hi) in Hp as [? _].
      * by left.
    + intros x. rewrite elem_of_cons, Hmem. set_solver.
Qed.

(** Relaxing the adjacency entries of the node just visited. *)
Lemma inv_basic_relax (g : graph) start st1 st2 d u nbrs :
  inv_basic g start st1 → u ∈ visited st1 → dist st1 !! u = Some (Fin d) →
  g !! u = Some nbrs → relaxed d u (map_to_list nbrs) st1 st2 →
  inv_basic g start st2.
Proof.
  intros Hi Hu Hdu Hg Hr.
  assert (∀ x, x ∈ visited st1 →
    dist st2 !! x = dist st1 !! x ∧ parent st2 !! x = parent st1 !! x) as Hfix.
  { intros x Hx. by destruct (relaxed_change _ _ _ _ _ Hr x) as [?|[? _]]. }
  assert (start ∈ visited st1) as Hstart.
  { destruct (ib_start _ _ _ Hi) as [?| ->]; [done|]. simpl in Hu. set_solver. }
  split.
  - left. by rewrite (relaxed_visited _ _ _ _ _ Hr).
  - apply (relaxed_sorted _ _ _ _ _ Hr), (ib_sorted _ _ _ Hi).
  - rewrite (relaxed_dom_dist _ _ _ _ _ Hr). apply (ib_dom_dist _ _ _ Hi).
  - rewrite (relaxed_dom_parent _ _ _ _ _ Hr).
    + apply (ib_dom_parent _ _ _ Hi).
    + by rewrite (ib_dom_parent _ _ _ Hi), (ib_dom_dist _ _ _ Hi).
  - intros d' v Hin.
    destruct (relaxed_pq_new _ _ _ _ _ Hr _ Hin)
      as [Hold|(x & w & dx & [= -> ->] & _ & _ & Hd & Hle)].
    + destruct (ib_pq_dist _ _ _ Hi d' v Hold) as (d1 & Hd1 & Hle1).
      destruct (relaxed_decrease _ _ _ _ _ _ _ Hr Hd1) as (d2 & Hd2 & Hle2).
      exists d2. split; [done|lia].
    + by exists dx.
  - intros v dv Hv Hd. rewrite (relaxed_visited _ _ _ _ _ Hr) in Hv.
    destruct (relaxed_change _ _ _ _ _ Hr v)
      as [[Hd' _]|(_ & w & old & _ & _ & _ & Hd' & _ & Hq)].
    + apply (relaxed_pq_old _ _ _ _ _ Hr), (ib_dist_pq _ _ _ Hi); [done|].
      by rewrite <-Hd'.
    + rewrite Hd in Hd'. by injection Hd' as ->.
  - intros v Hv. rewrite (relaxed_visited _ _ _ _ _ Hr) in Hv.
    destruct (Hfix v Hv) as [-> _]. by apply (ib_visited_dist _ _ _ Hi).
  - intros v dv Hd.
    destruct (relaxed_change _ _ _ _ _ Hr v)
      as [[Hd' _]|(_ & w & old & Hin & _ & _ & Hd' & _)].
    + apply (ib_walk _ _ _ Hi). by rewrite <-Hd'.
    + rewrite Hd in Hd'. injection Hd' as ->.
      apply walk_snoc with u; [by apply (ib_walk _ _ _ Hi)|].
      apply weight_of_Some. exists nbrs. split; [done|].
      by apply elem_of_map_to_list.
  - intros x p Hp. rewrite (relaxed_visited _ _ _ _ _ Hr).
    destruct (relaxed_change _ _ _ _ _ Hr x)
      as [[Hd' Hp']|(_ & w & old & Hin & _ & _ & Hd' & Hp' & _)].
    + rewrite Hp' in Hp.
      destruct (ib_parent _ _ _ Hi x p Hp) as (Hpv & dp & w & Hw & Hdp & Hdx).
      split; [done|]. exists dp, w. destruct (Hfix p Hpv) as [-> _].
      by rewrite Hd'.
    + rewrite Hp in Hp'. injection Hp' as ->. split; [done|].
      exists d, w. destruct (Hfix u Hu) as [-> _]. split_and!; [|done..].
      apply weight_of_Some. exists nbrs. split; [done|].
      by apply elem_of_map_to_list.
  - intros x Hp.
    destruct (relaxed_change _ _ _ _ _ Hr x)
      as [[Hd' Hp']|(_ & w & old & _ & _ & _ & _ & Hp' & _)].
    + rewrite Hd'. apply (ib_root _ _ _ Hi). by rewrite <-Hp'.
    + rewrite Hp in Hp'. done.
  - destruct (Hfix start Hstart) as [-> _]. apply (ib_dist_start _ _ _ Hi).
  - destruct (ib_order _ _ _ Hi) as (order & Ho & Hmem).
    exists order. rewrite (relaxed_visited _ _ _ _ _ Hr). split; [|done].
    eapply ordered_ext; [|done]. intros x Hx. apply Hfix. by apply Hmem.
Qed.

(** Every iteration that returns keeps the invariant. *)
Lemma inv_basic_loop_body g start target st c :
  inv_basic g start st → loop_body g target st = Returns c →
  inv_basic g start (control_state c).
Proof.
  intros Hi. unfold loop_body.
  destruct (pq st) as [|[d u] pq'] eqn:Hpq; simpl.
  { by intros [= <-]. }
  case_decide as Hv.
  { intros [= <-]. by eapply inv_basic_stale. }
  pose proof (inv_basic_visit _ _ _ _ _ _ Hi Hpq Hv) as Hi1.
  case_decide as Ht.
  { by intros [= <-]. }
  intros (nbrs & Hu%getitem_Returns & (st2 & Hr & [= <-])%bind_Returns)%bind_Returns.
  simpl. eapply inv_basic_relax; [exact Hi1| | |done|by apply relax_all_relaxed].
  - simpl. set_solver.
  - simpl. by eapply popped_dist.
Qed.

(** On a closed graph no iteration raises. *)
Lemma loop_body_returns g start target st :
  closed g → inv_basic g start st → ∃ c, loop_body g target st = Returns c.
Proof.
  intros Hc Hi. unfold loop_body.
  destruct (pq st) as [|[d u] pq'] eqn:Hpq; simpl; [by eexists|].
  case_decide as Hv; [by eexists|]. case_decide as Ht; [by eexists|].
  pose proof (popped_dist _ _ _ _ _ _ Hi Hpq Hv) as Hdu.
  assert (u ∈ dom g) as [nbrs Hu]%elem_of_dom.
  { rewrite <-(ib_dom_dist _ _ _ Hi). by apply elem_of_dom_2 in Hdu. }
  unfold getitem. rewrite Hu. simpl.
  match goal with |- context [relax_all ?a ?b ?c ?s] =>
    destruct (relax_all_returns a b c s) as [st2 ->] end; [|by eexists].
  simpl. intros x w Hin%elem_of_map_to_list _.
  rewrite (ib_dom_dist _ _ _ Hi). apply (Hc u x w).
  apply weight_of_Some. by exists nbrs.
Qed.

(** ** Path reconstruction *)

Lemma reconstruct_chain parent0 x l fuel acc :
  chain parent0 x l → (length l ≤ fuel)%nat →
  reconstruct fuel parent0 (Some x) acc = Returns (acc ++ l).
Proof.
  intros Hc. revert fuel acc.
  induction Hc as [x Hx|x p l Hx Hc IH]; intros [|fuel] acc Hlen;
    simpl in *; try lia.
  - unfold getitem. rewrite Hx. simpl. by destruct fuel.
  - unfold getitem. rewrite Hx. simpl. rewrite IH by lia.
    by rewrite <-app_assoc.
Qed.

Lemma reconstruct_not_OutOfFuel_mono parent0 step acc n m :
  reconstruct n parent0 step acc ≠ OutOfFuel → (n ≤ m)%nat →
  reconstruct m parent0 step acc = reconstruct n parent0 step acc.
Proof.
  revert m step acc. induction n as [|n IH]; intros m step acc Hn Hle.
  - destruct step; simpl in *; [done|]. by destruct m.
  - destruct m as [|m]; [lia|]. destruct step as [s|]; simpl in *; [|done].
    destruct (getitem parent0 s); simpl in *; try done.
    apply IH; [done|lia].
Qed.

Lemma ordered_NoDup parent0 l : ordered parent0 l → NoDup l.
Proof. induction 1; constructor; auto. Qed.

Lemma ordered_chain parent0 order x :
  ordered parent0 order → x ∈ order →
  ∃ l, chain parent0 x l ∧ (length l ≤ length order)%nat.
Proof.
  intros Ho. revert x.
  induction Ho as [|y order Ho IH Hy Hp]; intros x Hx.
  { by apply elem_of_nil in Hx. }
  apply elem_of_cons in Hx as [->|Hx].
  - destruct Hp as [Hp|(p & Hp & Hin)].
    + exists [y]. split; [by constructor|simpl; lia].
    + destruct (IH p Hin) as (l & Hl & Hlen).
      exists (y :: l). split; [by econstructor|simpl; lia].
  - destruct (IH x Hx) as (l & Hl & Hlen). exists l. split; [done|simpl; lia].
Qed.

(** Following the parent pointers from any node of the graph stops, after
    at most one step per node of the graph plus one. *)
Lemma inv_basic_chain g start st x :
  inv_basic g start st → x ∈ dom g →
  ∃ l, chain (parent st) x l ∧ (length l ≤ S (size g))%nat.
Proof.
  intros Hi Hx. destruct (ib_order _ _ _ Hi) as (order & Ho & Hmem).
  assert (length order ≤ size g)%nat as Hlen.
  { rewrite <-(size_dom (D:=gset string)).
    rewrite <-(size_list_to_set (C:=gset string)) by by eapply ordered_NoDup.
    apply subseteq_size. intros y Hy%elem_of_list_to_set%Hmem.
    destruct (ib_visited_dist _ _ _ Hi y Hy) as [d Hd].
    rewrite <-(ib_dom_dist _ _ _ Hi). by apply elem_of_dom_2 in Hd. }
  destruct (decide (x ∈ visited st)) as [Hv|Hv].
  { destruct (ordered_chain _ _ x Ho) as (l & Hl & ?); [by apply Hmem|].
    exists l. split; [done|lia]. }
  rewrite <-(ib_dom_parent _ _ _ Hi) in Hx.
  apply elem_of_dom in Hx as [[p|] Hp].
  - destruct (ib_parent _ _ _ Hi x p Hp) as [Hpv _].
    destruct (ordered_chain _ _ p Ho) as (l & Hl & ?); [by apply Hmem|].
    exists (x :: l). split; [by econstructor|simpl; lia].
  - exists [x]. split; [by constructor|simpl; lia].
Qed.

(** ** Walks, paths and the parent chain *)

Lemma path_weight_cons_cons g a b q :
  path_weight g (a :: b :: q)
  = w ← weight_of g a b; W ← path_weight g (b :: q); Some (w + W).
Proof. done. Qed.

Global Arguments path_weight : simpl never.

Lemma path_weight_snoc g q p x W w :
  last q = Some p → path_weight g q = Some W → weight_of g p x = Some w →
  path_weight g (q ++ [x]) = Some (W + w).
Proof.
  revert W. induction q as [|a q IH]; intros W Hlast HW Hw; [done|].
  destruct q as [|b q].
  - injection Hlast as ->. injection HW as <-.
    change (path_weight g ([p] ++ [x])) with
      (e ← weight_of g p x; Some (e + 0)).
    rewrite Hw. simpl. f_equal. lia.
  - rewrite last_cons_cons in Hlast.
    rewrite path_weight_cons_cons in HW.
    rewrite <-!app_comm_cons, path_weight_cons_cons, !app_comm_cons.
    destruct (weight_of g a b) as [w'|]; simpl in *; [|done].
    destruct (path_weight g (b :: q)) as [W'|] eqn:HW'; simpl in *; [|done].
    injection HW as <-. rewrite (IH W') by done. simpl. f_equal. lia.
Qed.

Lemma is_path_refl g a : is_path g a a [a] 0.
Proof. done. Qed.

Lemma is_path_snoc g a p x q W w :
  is_path g a p q W → weight_of g p x = Some w →
  is_path g a x (q ++ [x]) (W + w).
Proof.
  intros (Hh & Hl & HW) Hw. split_and!.
  - destruct q; [done|]. done.
  - apply last_snoc.
  - by eapply path_weight_snoc.
Qed.

Lemma walk_is_path g s a b p W0 W :
  walk g s a W0 → is_path g a b p W → walk g s b (W0 + W).
Proof.
  revert a W0 W. induction p as [|x p IH]; intros a W0 W Hwalk (Hh & Hl & HW).
  { done. }
  injection Hh as ->. destruct p as [|y p].
  - injection Hl as <-. injection HW as <-.
    by replace (W0 + 0) with W0 by lia.
  - rewrite last_cons_cons in Hl.
    rewrite path_weight_cons_cons in HW.
    destruct (weight_of g a y) as [w'|] eqn:Hw; simpl in *; [|done].
    destruct (path_weight g (y :: p)) as [W'|] eqn:HW'; simpl in *; [|done].
    injection HW as <-.
    replace (W0 + (w' + W')) with ((W0 + w') + W') by lia.
    apply (IH y); [by eapply walk_snoc|done].
Qed.

Lemma is_path_walk g a b p W : is_path g a b p W → walk g a b W.
Proof.
  intros Hp. replace W with (0 + W) by lia.
  eapply walk_is_path; [constructor|done].
Qed.

(** The reversed parent chain of a node with a finite tentative distance
    is a path from [start] whose weight is that distance. *)
Lemma chain_is_path g start st x l dx :
  inv_basic g start st → chain (parent st) x l →
  dist st !! x = Some (Fin dx) → is_path g start x (reverse l) dx.
Proof.
  intros Hi Hc. revert dx. induction Hc as [x Hx|x p l Hx Hc IH]; intros dx Hdx.
  - destruct (ib_root _ _ _ Hi x Hx) as [->|Hinf]; [|congruence].
    rewrite (ib_dist_start _ _ _ Hi) in Hdx. injection Hdx as <-.
    apply is_path_refl.
  - destruct (ib_parent _ _ _ Hi x p Hx) as (_ & dp & w & Hw & Hdp & Hdx').
    rewrite Hdx in Hdx'. injection Hdx' as ->.
    rewrite reverse_cons. eapply is_path_snoc; [by apply IH|done].
Qed.



Lemma walk_exists_path g s v W : walk g s v W → ∃ p, is_path g s v p W.
Proof.
  induction 1 as [|y z W w _ [p Hp] Hw].
  - exists [s]. apply is_path_refl.
  - exists (p ++ [z]). by eapply is_path_snoc.
Qed.

(** ** The whole of [dijkstra] *)

Lemma while_loop_inv_basic g start target fuel st' :
  start ∈ dom g →
  while_loop fuel g target (init_state g start) = Returns st' →
  inv_basic g start st'.
Proof.
  intros Hs. apply (while_loop_rule (inv_basic g start)).
  - intros s s' Hi Hb. apply (inv_basic_loop_body _ _ _ _ _ Hi Hb).
  - intros s s' Hi Hb. apply (inv_basic_loop_body _ _ _ _ _ Hi Hb).
  - by apply inv_basic_init.
Qed.

Lemma measure_init (g : graph) start :
  measure g (init_state g start) = S (total_degree g).
Proof. unfold measure. simpl. by rewrite unexpanded_empty. Qed.

(** What [dijkstra] returns once the queue loop has returned. *)
Lemma dijkstra_fuel_returns (g : graph) start target fuel st' l dt :
  start ∈ dom g → target ∈ dom g →
  while_loop fuel g target (init_state g start) = Returns st' →
  chain (parent st') target l → (length l ≤ fuel)%nat →
  dist st' !! target = Some dt →
  dijkstra_fuel fuel g start target
  = Returns (if decide (dt = Inf) then (Inf, []) else (dt, reverse l)).
Proof.
  intros Hs Ht Hw Hc Hlen Hd. unfold dijkstra_fuel.
  rewrite decide_False by tauto. rewrite Hw. simpl.
  rewrite (reconstruct_chain _ _ l) by done. simpl.
  unfold getitem. rewrite Hd. simpl. by case_decide.
Qed.

Lemma dijkstra_fuel_outside (g : graph) start target fuel :
  start ∉ dom g ∨ target ∉ dom g →
  dijkstra_fuel fuel g start target = Returns (Inf, []).
Proof. intros H. unfold dijkstra_fuel. by rewrite decide_True. Qed.

(** The fuel [dijkstra] provides is enough, on every graph. *)
Lemma dijkstra_fuel_enough (g : graph) start target fuel :
  (fuel_bound g ≤ fuel)%nat →
  dijkstra_fuel fuel g start target = dijkstra g start target
  ∧ dijkstra g start target ≠ OutOfFuel.
Proof.
  intros Hfuel. unfold dijkstra.
  destruct (decide (start ∉ dom g ∨ target ∉ dom g)) as [Hout|Hin].
  { by rewrite !dijkstra_fuel_outside. }
  assert (start ∈ dom g ∧ target ∈ dom g) as [Hs Ht].
  { split; apply dec_stable; tauto. }
  assert (while_loop (fuel_bound g) g target (init_state g start) ≠ OutOfFuel)
    as Hterm.
  { apply while_loop_terminates. rewrite measure_init. unfold fuel_bound. lia. }
  pose proof (while_loop_fuel_mono _ _ _ _ _ Hterm Hfuel) as Hmono.
  destruct (while_loop (fuel_bound g) g target (init_state g start))
    as [st'|e|] eqn:Hw; [| |done].
  - pose proof (while_loop_inv_basic _ _ _ _ _ Hs Hw) as Hi.
    destruct (inv_basic_chain _ _ _ target Hi Ht) as (l & Hc & Hlen).
    assert (is_Some (dist st' !! target)) as [dt Hdt].
    { apply elem_of_dom. by rewrite (ib_dom_dist _ _ _ Hi). }
    rewrite (dijkstra_fuel_returns g start target fuel st' l dt),
      (dijkstra_fuel_returns g start target (fuel_bound g) st' l dt);
      try done; unfold fuel_bound in *; try lia.
  - unfold dijkstra_fuel. rewrite !decide_False by done.
    by rewrite Hmono, Hw.
Qed.

(** On a closed graph [dijkstra] returns a result. *)
Lemma dijkstra_closed_returns (g : graph) start target :
  closed g → start ∈ dom g → target ∈ dom g →
  ∃ st' l dt,
    while_loop (fuel_bound g) g target (init_state g start) = Returns st'
    ∧ inv_basic g start st'
    ∧ chain (parent st') target l
    ∧ dist st' !! target = Some dt
    ∧ dijkstra g start target
      = Returns (if decide (dt = Inf) then (Inf, []) else (dt, reverse l)).
Proof.
  intros Hc Hs Ht.
  destruct (while_loop_returns (inv_basic g start) g target (fuel_bound g)
    (init_state g start)) as [st' Hw].
  - intros s s' Hi Hb. apply (inv_basic_loop_body _ _ _ _ _ Hi Hb).
  - intros s Hi. by eapply loop_body_returns.
  - by apply inv_basic_init.
  - rewrite measure_init. unfold fuel_bound. lia.
  - pose proof (while_loop_inv_basic _ _ _ _ _ Hs Hw) as Hi.
    destruct (inv_basic_chain _ _ _ target Hi Ht) as (l & Hl & Hlen).
    assert (is_Some (dist st' !! target)) as [dt Hdt].
    { apply elem_of_dom. by rewrite (ib_dom_dist _ _ _ Hi). }
    exists st', l, dt. split_and!; try done.
    apply (dijkstra_fuel_returns g start target _ st' l dt); try done.
    unfold fuel_bound. lia.
Qed.

(** ** Optimality *)

Lemma inv_opt_init (g : graph) start target :
  inv_opt g target (init_state g start).
Proof. split; simpl; set_solver. Qed.

(** Every walk from [start] either ends in a visited node whose distance
    it does not beat, or is at least as long as some queue entry. *)
Lemma lower_bound g start target st y W :
  positive_weights g → inv_basic g start st → inv_opt g target st →
  walk g start y W →
  (y ∈ visited st ∧ ∃ dy, dist st !! y = Some (Fin dy) ∧ dy ≤ W)
  ∨ (∃ d x, (d, x) ∈ pq st ∧ d ≤ W).
Proof.
  intros Hpos Hi Ho. induction 1 as [|y z W w Hwalk IH Hw].
  - destruct (ib_start _ _ _ Hi) as [Hs| ->].
    + left. split; [done|]. exists 0. split; [|done].
      apply (ib_dist_start _ _ _ Hi).
    + right. exists 0, start. split; [|done]. simpl. by left.
  - pose proof (Hpos _ _ _ Hw) as Hw0.
    destruct IH as [(Hy & dy & Hdy & Hle)|(d & x & Hin & Hle)].
    + destruct (io_edges _ _ _ Ho y z w Hy Hw) as (du & dv & Hdu & Hdv & Hle').
      rewrite Hdy in Hdu. injection Hdu as <-.
      destruct (decide (z ∈ visited st)) as [Hz|Hz].
      * left. split; [done|]. exists dv. split; [done|lia].
      * right. exists dv, z. split; [|lia].
        by apply (ib_dist_pq _ _ _ Hi).
    + right. exists d, x. split; [done|lia].
Qed.

Lemma inv_opt_loop_body g start target st st' :
  positive_weights g → inv_basic g start st → inv_opt g target st →
  loop_body g target st = Returns (Continue st') → inv_opt g target st'.
Proof.
  intros Hpos Hi Ho. unfold loop_body.
  destruct (pq st) as [|[d u] pq'] eqn:Hpq; simpl; [done|].
  case_decide as Hv.
  { intros [= <-]. split; simpl.
    - apply (io_target _ _ _ Ho).
    - intros u' d' x Hu' Hin. apply (io_settled _ _ _ Ho u' d' x Hu').
      rewrite Hpq. by right.
    - apply (io_edges _ _ _ Ho). }
  case_decide as Ht; [done|].
  intros (nbrs & Hu%getitem_Returns
    & (st2 & Hr%relax_all_relaxed & [= <-])%bind_Returns)%bind_Returns.
  pose proof (popped_dist _ _ _ _ _ _ Hi Hpq Hv) as Hdu.
  pose proof (relaxed_visited _ _ _ _ _ Hr) as Hvis. simpl in Hvis.
  assert (∀ x, x ∈ {[u]} ∪ visited st → dist st2 !! x = dist st !! x) as Hfix.
  { intros x Hx. by destruct (relaxed_change _ _ _ _ _ Hr x) as [[? _]|[? _]]. }
  assert (∀ x, x ∈ {[u]} ∪ visited st →
    ∃ dx, dist st !! x = Some (Fin dx) ∧ dx ≤ d) as Hsettled.
  { intros x [->%elem_of_singleton|Hx]%elem_of_union; [by exists d|].
    apply (io_settled _ _ _ Ho x d u Hx). rewrite Hpq. by left. }
  assert (∀ x w, weight_of g u x = Some w ↔ (x, w) ∈ map_to_list nbrs) as Hitems.
  { intros x w. rewrite elem_of_map_to_list, weight_of_Some. naive_solver. }
  split.
  - rewrite Hvis. pose proof (io_target _ _ _ Ho). set_solver.
  - intros u' d' x Hu' Hin. rewrite Hvis in Hu'. rewrite (Hfix u' Hu').
    destruct (Hsettled u' Hu') as (du' & Hdu' & Hle). exists du'.
    split; [done|]. enough (d ≤ d') by lia.
    destruct (relaxed_pq_new _ _ _ _ _ Hr _ Hin)
      as [Hold|(x' & w & dx & [= -> ->] & Hxw%Hitems%Hpos & _)]; [|lia].
    simpl in Hold. pose proof (ib_sorted _ _ _ Hi) as Hs. rewrite Hpq in Hs.
    apply (entry_le_fst (d, u) (d', x)), (sorted_head_le _ _ _ Hs). by right.
  - intros u' v w Hu' Hw. rewrite Hvis in Hu'. rewrite (Hfix u' Hu').
    destruct (decide (u' = u)) as [->|Hne].
    + exists d. rewrite Hdu. pose proof (Hpos _ _ _ Hw) as Hw0.
      destruct (decide (v ∈ {[u]} ∪ visited st)) as [Hvv|Hvv].
      * rewrite (Hfix v Hvv). destruct (Hsettled v Hvv) as (dv & Hdv & Hle).
        exists dv. split_and!; [done..|lia].
      * destruct (relaxed_edge _ _ _ _ _ Hr v w) as (dv & Hdv & Hle);
          [by apply Hitems|done|].
        exists dv. by split_and!.
    + assert (u' ∈ visited st) as Hu'' by set_solver.
      destruct (io_edges _ _ _ Ho u' v w Hu'' Hw) as (du & dv & Hdu' & Hdv & Hle).
      destruct (relaxed_decrease _ _ _ _ _ _ _ Hr Hdv) as (dv' & Hdv' & Hle').
      exists du, dv'. split_and!; [done..|lia].
Qed.

(** When the loop exits, [dist[target]] is finite and minimal as soon as
    [target] can be reached at all. *)
Lemma inv_opt_break g start target st st' W :
  positive_weights g → inv_basic g start st → inv_opt g target st →
  loop_body g target st = Returns (Break st') →
  walk g start target W →
  ∃ d, dist st' !! target = Some (Fin d) ∧ d ≤ W.
Proof.
  intros Hpos Hi Ho Hb Hwalk.
  destruct (lower_bound _ _ _ _ _ _ Hpos Hi Ho Hwalk)
    as [[Hv _]|(d' & x & Hin & Hle)].
  { by destruct (io_target _ _ _ Ho). }
  revert Hb. unfold loop_body.
  destruct (pq st) as [|[d u] pq'] eqn:Hpq; simpl.
  { by apply elem_of_nil in Hin. }
  case_decide as Hv; [done|]. case_decide as Ht.
  - intros [= <-]. simpl. subst u. exists d.
    split; [by eapply popped_dist|].
    pose proof (ib_sorted _ _ _ Hi) as Hs. rewrite Hpq in Hs.
    apply (sorted_head_le _ _ _ Hs), entry_le_fst in Hin. simpl in Hin. lia.
  - by intros (nbrs & _ & (st2 & _ & [=])%bind_Returns)%bind_Returns.
Qed.

Lemma while_loop_optimal g start target fuel st' W :
  positive_weights g → start ∈ dom g →
  while_loop fuel g target (init_state g start) = Returns st' →
  walk g start target W →
  ∃ d, dist st' !! target = Some (Fin d) ∧ d ≤ W.
Proof.
  intros Hpos Hs Hw Hwalk.
  apply (while_loop_rule
    (λ s, inv_basic g start s ∧ inv_opt g target s)
    (λ s, ∃ d, dist s !! target = Some (Fin d) ∧ d ≤ W)
    g target fuel (init_state g start)); [| | |done].
  - intros s s' [Hi Ho] Hb. split.
    + apply (inv_basic_loop_body _ _ _ _ _ Hi Hb).
    + by eapply inv_opt_loop_body.
  - intros s s' [Hi Ho] Hb. by eapply inv_opt_break.
  - split; [by apply inv_basic_init|apply inv_opt_init].
Qed.

(** ** Self-loops *)

Lemma graph_eq {V} (g1 g2 : graph_of V) :
  dom g1 = dom g2 → (∀ x y, weight_of g1 x y = weight_of g2 x y) → g1 = g2.
Proof.
  intros Hd Hw. apply map_eq. intros x.
  destruct (g1 !! x) as [m1|] eqn:H1, (g2 !! x) as [m2|] eqn:H2.
  - f_equal. apply map_eq. intros y. specialize (Hw x y).
    unfold weight_of in Hw. by rewrite H1, H2 in Hw.
  - apply elem_of_dom_2 in H1. apply not_elem_of_dom in H2. set_solver.
  - apply elem_of_dom_2 in H2. apply not_elem_of_dom in H1. set_solver.
  - done.
Qed.

(** [remove_edge(a, a)] either changes nothing or deletes the entry
    [graph[a][a]]. *)
Lemma remove_self_loop_form a (g g0 : graph) :
  remove_edge a a g = Returns g0 →
  g0 = g ∨ ∃ m w, g !! a = Some m ∧ m !! a = Some w
    ∧ g0 = <[a := delete a m]> g.
Proof.
  destruct (remove_edge_spec a a g) as (g' & Hr & Hd & Hw & _).
  rewrite Hr. intros [= <-].
  destruct (weight_of g a a) as [w|] eqn:Haa.
  - right. apply weight_of_Some in Haa as (m & Hm & Hmw).
    exists m, w. split_and!; [done..|]. apply graph_eq.
    + rewrite Hd, dom_insert_L. apply elem_of_dom_2 in Hm. set_solver.
    + intros x y. rewrite Hw, weight_of_insert.
      destruct (decide (a = x)) as [<-|Hx].
      * destruct (decide (y = a)) as [->|Hy].
        -- rewrite decide_True by auto. by rewrite lookup_delete_eq.
        -- rewrite decide_False by naive_solver.
           rewrite lookup_delete_ne by done. unfold weight_of. by rewrite Hm.
      * by rewrite decide_False by naive_solver.
  - left. apply graph_eq; [done|]. intros x y. rewrite Hw.
    case_decide as Hxy; [|done]. assert (x = a ∧ y = a) as [-> ->] by tauto.
    done.
Qed.

Lemma relax_visited d u x w st :
  x ∈ visited st → relax d u (x, w) st = Returns st.
Proof. intros Hx. unfold relax. by rewrite decide_True. Qed.

Section self_loop.
Context (g : graph) (a : node) (m : gmap string Z) (w : Z).
Context (Hm : g !! a = Some m) (Hw : m !! a = Some w).

Local Notation g0 := (<[a := delete a m]> g).

Lemma self_loop_loop_body target st :
  loop_body g target st = loop_body g0 target st.
Proof.
  unfold loop_body.
  destruct (heappop (pq st)) as [[[d u] pq']|]; [|done].
  case_decide as Hv; [done|]. case_decide as Ht; [done|].
  destruct (decide (u = a)) as [->|Hu].
  - unfold getitem. rewrite lookup_insert_eq, Hm. simpl. f_equal.
    rewrite (relax_all_perm d a (map_to_list m)
      ((a, w) :: map_to_list (delete a m))).
    + simpl. rewrite relax_visited; [done|]. simpl. set_solver.
    + apply NoDup_fst_map_to_list.
    + symmetry. by apply map_to_list_delete.
  - unfold getitem. by rewrite lookup_insert_ne.
Qed.

Lemma self_loop_while_loop fuel target st :
  while_loop fuel g target st = while_loop fuel g0 target st.
Proof.
  revert st. induction fuel as [|fuel IH]; intros st; simpl; [done|].
  rewrite self_loop_loop_body.
  destruct (loop_body g0 target st) as [[st'|st']| |]; simpl; auto.
Qed.

Lemma self_loop_dom : dom g0 = dom g.
Proof.
  rewrite dom_insert_L. apply elem_of_dom_2 in Hm. set_solver.
Qed.

Lemma self_loop_init start : init_state g0 start = init_state g start.
Proof.
  unfold init_state. rewrite !fmap_insert.
  rewrite !(insert_id _ a); [done|by rewrite lookup_fmap, Hm..].
Qed.

Lemma self_loop_dijkstra_fuel fuel start target :
  dijkstra_fuel fuel g start target = dijkstra_fuel fuel g0 start target.
Proof.
  unfold dijkstra_fuel.
  by rewrite self_loop_dom, self_loop_init, self_loop_while_loop.
Qed.

Lemma self_loop_dijkstra start target :
  dijkstra g start target = dijkstra g0 start target.
Proof.
  set (n := (fuel_bound g `max` fuel_bound g0)%nat).
  destruct (dijkstra_fuel_enough g start target n) as [<- _]; [lia|].
  destruct (dijkstra_fuel_enough g0 start target n) as [<- _]; [lia|].
  apply self_loop_dijkstra_fuel.
Qed.
End self_loop.

(** Deleting a self-loop changes no result of [dijkstra]. *)
Lemma dijkstra_remove_self_loop (g g0 : graph) a start target :
  remove_edge a a g = Returns g0 →
  dijkstra g start target = dijkstra g0 start target.
Proof.
  intros [->|(m & w & Hm & Hw & ->)]%remove_self_loop_form; [done|].
  by eapply self_loop_dijkstra.
Qed.

(** ** Checking the invariants of a concrete graph *)

Lemma symmetric_check (g : graph) :
  map_Forall (λ a m, map_Forall (λ b w, weight_of g b a = Some w) m) g →
  symmetric g.
Proof.
  intros Hall.
  assert (∀ a b w, weight_of g a b = Some w → weight_of g b a = Some w) as H.
  { intros a b w (m & Hm & Hb)%weight_of_Some.
    apply (map_Forall_lookup_1 _ _ _ _ (map_Forall_lookup_1 _ _ _ _ Hall Hm) Hb). }
  intros a b w. split; apply H.
Qed.

Lemma positive_check (g : graph) :
  map_Forall (λ _ m, map_Forall (λ _ w, 0 < w) m) g → positive_weights g.
Proof.
  intros Hall a b w (m & Hm & Hb)%weight_of_Some.
  apply (map_Forall_lookup_1 _ _ _ _ (map_Forall_lookup_1 _ _ _ _ Hall Hm) Hb).
Qed.

Lemma closed_check (g : graph) :
  map_Forall (λ _ m, map_Forall (λ b _, b ∈ dom g) m) g → closed g.
Proof.
  intros Hall a b w (m & Hm & Hb)%weight_of_Some.
  apply (map_Forall_lookup_1 _ _ _ _ (map_Forall_lookup_1 _ _ _ _ Hall Hm) Hb).
Qed.

Lemma default_graph_symmetric : symmetric default_graph.
Proof. apply symmetric_check. apply (bool_decide_unpack _). by vm_compute. Qed.

Lemma default_graph_positive : positive_weights default_graph.
Proof. apply positive_check. apply (bool_decide_unpack _). by vm_compute. Qed.

Lemma default_graph_closed : closed default_graph.
Proof. apply symmetric_closed, default_graph_symmetric. Qed.

(** The edit operations keep every neighbour a node. *)
Lemma add_edge_closed {V} a b (w : V) (g g' : graph_of V) :
  closed g → add_edge a b w g = Returns g' → closed g'.
Proof.
  intros Hc Hadd. destruct (add_edge_spec a b w g) as (g'' & Hg & Hd & Hw).
  rewrite Hadd in Hg. injection Hg as <-.
  intros x y v. rewrite Hw, Hd. case_decide as Hxy.
  - intros _. set_solver.
  - intros Hv%Hc. set_solver.
Qed.

Lemma remove_edge_closed {V} a b (g g' : graph_of V) :
  closed g → remove_edge a b g = Returns g' → closed g'.
Proof.
  intros Hc Hrm. destruct (remove_edge_spec a b g) as (g'' & Hg & Hd & Hw & _).
  rewrite Hrm in Hg. injection Hg as <-.
  intros x y v. rewrite Hw, Hd. case_decide; [done|]. apply Hc.
Qed.

(** ** Helpers on the edit operations *)

Lemma add_edge_symmetric {V} a b (w : V) (g g' : graph_of V) :
  symmetric g → add_edge a b w g = Returns g' → symmetric g'.
Proof.
  intros Hs Hadd. destruct (add_edge_spec a b w g) as (g'' & Hg & _ & Hw).
  rewrite Hadd in Hg. injection Hg as <-.
  intros x y v. rewrite !Hw. specialize (Hs x y v).
  repeat case_decide; naive_solver.
Qed.

Lemma remove_edge_symmetric {V} a b (g g' : graph_of V) :
  symmetric g → remove_edge a b g = Returns g' → symmetric g'.
Proof.
  intros Hs Hrm. destruct (remove_edge_spec a b g) as (g'' & Hg & _ & Hw & _).
  rewrite Hrm in Hg. injection Hg as <-.
  intros x y v. rewrite !Hw. specialize (Hs x y v).
  repeat case_decide; naive_solver.
Qed.


Lemma remove_edge_positive a b (g g' : graph) :
  positive_weights g → remove_edge a b g = Returns g' → positive_weights g'.
Proof.
  intros Hp Hrm. destruct (remove_edge_spec a b g) as (g'' & Hg & _ & Hw & _).
  rewrite Hrm in Hg. injection Hg as <-.
  intros x y v. rewrite Hw. case_decide; [done|apply Hp].
Qed.

Lemma add_edge_weights {V} (P : V → Prop) a b (w0 : V) (g g' : graph_of V) :
  (∀ x y w, weight_of g x y = Some w → P w) → P w0 →
  add_edge a b w0 g = Returns g' →
  ∀ x y w, weight_of g' x y = Some w → P w.
Proof.
  intros Hall Hw0 Hadd. destruct (add_edge_spec a b w0 g) as (g'' & Hg & _ & Hw).
  rewrite Hadd in Hg. injection Hg as <-.
  intros x y w. rewrite Hw. case_decide; [by intros [= <-]|apply Hall].
Qed.

Lemma remove_edge_weights {V} (P : V → Prop) a b (g g' : graph_of V) :
  (∀ x y w, weight_of g x y = Some w → P w) →
  remove_edge a b g = Returns g' →
  ∀ x y w, weight_of g' x y = Some w → P w.
Proof.
  intros Hall Hrm. destruct (remove_edge_spec a b g) as (g'' & Hg & _ & Hw & _).
  rewrite Hrm in Hg. injection Hg as <-.
  intros x y w. rewrite Hw. case_decide; [done|apply Hall].
Qed.

Lemma perform_float_valid c (g : graph_of float) :
  symmetric g → Float64.weights_accepted g →
  ∃ g', Float64.perform c g = Returns g'
    ∧ symmetric g' ∧ Float64.weights_accepted g'.
Proof.
  intros Hs Hp. destruct c as [a b wt|a b]; simpl.
  - unfold Float64.add_edge_handler. case_decide; [by eexists|].
    destruct wt as [w|]; [|by eexists].
    destruct (w <=? 0)%float eqn:Hw; [by eexists|].
    destruct (add_edge_spec a b w g) as (g' & Hg & _). rewrite Hg. simpl.
    exists g'. split; [done|]. split.
    + by eapply add_edge_symmetric.
    + exact (add_edge_weights Float64.accepted a b w g g' Hp Hw Hg).
  - unfold remove_edge_handler. case_decide; [by eexists|].
    case_decide as Hd; [by eexists|].
    assert (a ∈ dom g) as [m Hm]%elem_of_dom by (apply dec_stable; tauto).
    unfold getitem. rewrite Hm. simpl. case_decide; [by eexists|].
    destruct (remove_edge_spec a b g) as (g' & Hg & _). rewrite Hg. simpl.
    exists g'. split; [done|]. split.
    + by eapply remove_edge_symmetric.
    + exact (remove_edge_weights Float64.accepted a b g g' Hp Hg).
Qed.


(** ** [dijkstra] on float weights: where sums round or overflow *)


(** Sums round: from [A] to [D] the code adds [2^53 + 1 + 1] and gets
    [2^53]; from [D] to [A] it adds [1 + 1 + 2^53] and gets [2^53 + 2]. *)
Example dijkstra_float_rounding :
  Float64.dijkstra rounding_graph "A" "D"
  = Returns (9007199254740992%float, ["A"; "B"; "C"; "D"])
  ∧ Float64.dijkstra rounding_graph "D" "A"
    = Returns (9007199254740994%float, ["D"; "C"; "B"; "A"]).
Proof. split; vm_compute; reflexivity. Qed.

(** ** The model on concrete inputs *)

Example dijkstra_default_F_A :
  dijkstra default_graph "F" "A"
  = Returns (Fin 12, ["F"; "E"; "D"; "B"; "C"; "A"]).
Proof. vm_compute. reflexivity. Qed.

Example dijkstra_default_B_E :
  dijkstra default_graph "B" "E" = Returns (Fin 7, ["B"; "D"; "E"]).
Proof. vm_compute. reflexivity. Qed.

(** Two components: no path from [A] to [C]. *)
Example dijkstra_disconnected :
  dijkstra (list_to_map [("A", list_to_map [("B", 1)]);
                         ("B", list_to_map [("A", 1)]);
                         ("C", list_to_map [("D", 1)]);
                         ("D", list_to_map [("C", 1)])]) "A" "C"
  = Returns (Inf, []).
Proof. vm_compute. reflexivity. Qed.

(** Two shortest paths of weight 2; the tuple order of the queue pops
    [(1, "B")] before [(1, "C")], so the parent of [D] is [B]. *)
Example dijkstra_tie :
  dijkstra (list_to_map [("A", list_to_map [("C", 1); ("B", 1)]);
                         ("B", list_to_map [("A", 1); ("D", 1)]);
                         ("C", list_to_map [("A", 1); ("D", 1)]);
                         ("D", list_to_map [("B", 1); ("C", 1)])]) "A" "D"
  = Returns (Fin 2, ["A"; "B"; "D"]).
Proof. vm_compute. reflexivity. Qed.

(** * The claims *)




(** C2 (as stated, refuted). On the default graph [dijkstra('A', 'F')]
    does not return total weight 10. *)
Lemma dijkstra_default_A_F_not_10 :
  dijkstra default_graph "A" "F"
  ≠ Returns (Fin 10, ["A"; "C"; "B"; "D"; "E"; "F"]).
Proof. vm_compute. intros [=]. Qed.

(** C2 (amended). On the default graph [dijkstra('A', 'F')] returns total
    weight 12 via the path A, C, B, D, E, F. *)
Theorem dijkstra_default_A_F :
  dijkstra default_graph "A" "F"
  = Returns (Fin 12, ["A"; "C"; "B"; "D"; "E"; "F"]).
Proof. vm_compute. reflexivity. Qed.




(** C4. For every node [X] of the graph, [dijkstra(X, X)] returns total
    weight 0 and the path [[X]]. *)
Theorem dijkstra_reflexive (g : graph) X :
  X ∈ dom g → dijkstra g X X = Returns (Fin 0, [X]).
Proof.
  intros HX. pose proof HX as [m Hm]%elem_of_dom.
  unfold dijkstra, fuel_bound, dijkstra_fuel.
  rewrite decide_False by tauto. simpl while_loop.
  unfold loop_body. simpl.
  rewrite decide_False by set_solver. rewrite decide_True by done. simpl.
  unfold getitem. rewrite !lookup_fmap, Hm. simpl.
  rewrite lookup_insert_eq. done.
Qed.

(** C4 at the default graph, for the node A. *)
Lemma dijkstra_reflexive_witness :
  dijkstra default_graph "A" "A" = Returns (Fin 0, ["A"]).
Proof.
  apply dijkstra_reflexive.
  apply (bool_decide_unpack _). vm_compute. exact I.
Defined.

(** C5. Symmetry is kept by every mutation: on a symmetric graph both
    [add_edge(a, b, w)] and [remove_edge(a, b)] return a symmetric graph,
    and right after [add_edge(a, b, w)] both [graph[a][b]] and
    [graph[b][a]] are [w]. *)
Theorem symmetric_preserved (g : graph) a b w :
  symmetric g →
  (∃ g', add_edge a b w g = Returns g' ∧ symmetric g'
     ∧ weight_of g' a b = Some w ∧ weight_of g' b a = Some w)
  ∧ (∃ g', remove_edge a b g = Returns g' ∧ symmetric g').
Proof.
  intros Hs. split.
  - destruct (add_edge_spec a b w g) as (g' & Hg & _ & Hw).
    exists g'. split; [done|]. split_and!.
    + intros x y v. rewrite !Hw. specialize (Hs x y v).
      repeat case_decide; naive_solver.
    + rewrite Hw. by rewrite decide_True by auto.
    + rewrite Hw. by rewrite decide_True by auto.
  - destruct (remove_edge_spec a b g) as (g' & Hg & _ & Hw & _).
    exists g'. split; [done|].
    intros x y v. rewrite !Hw. specialize (Hs x y v).
    repeat case_decide; naive_solver.
Qed.

(** C5 at the default graph, for a new edge A-G. *)
Lemma symmetric_preserved_witness :
  (∃ g', add_edge "A" "G" 3 default_graph = Returns g' ∧ symmetric g'
     ∧ weight_of g' "A" "G" = Some 3 ∧ weight_of g' "G" "A" = Some 3)
  ∧ (∃ g', remove_edge "A" "G" default_graph = Returns g' ∧ symmetric g').
Proof.
  apply symmetric_preserved.
  apply symmetric_check, (bool_decide_unpack _). vm_compute. exact I.
Defined.

(** C6 (as stated, refuted). [add_edge] with weight 0 does not fail: it
    returns and records the weight in both directions. *)
Lemma add_edge_zero_accepted :
  ∃ g', add_edge "A" "B" 0 default_graph = Returns g'
    ∧ weight_of g' "A" "B" = Some 0 ∧ weight_of g' "B" "A" = Some 0.
Proof.
  destruct (add_edge_spec "A" "B" 0 default_graph) as (g' & Hg & _ & Hw).
  exists g'. rewrite !Hw. by rewrite !decide_True by auto.
Qed.

(** C6 (amended). [add_edge] itself checks no weight: for [w <= 0] it
    returns and records [w] in both directions.  Non-positive weights are
    rejected one level up, by [add_edge_handler], which shows a message
    (that the weight must be positive, once both node names are given)
    and leaves the graph as it was. *)
Theorem add_edge_nonpositive (g : graph) a b w :
  w ≤ 0 →
  (∃ g', add_edge a b w g = Returns g'
     ∧ weight_of g' a b = Some w ∧ weight_of g' b a = Some w)
  ∧ add_edge_handler a b (Some w) g
    = Returns (g, if decide (a = EmptyString ∨ b = EmptyString)
                  then WarnEnterBothNodes else ErrorWeightNotPositive).
Proof.
  intros Hw. split.
  - destruct (add_edge_spec a b w g) as (g' & Hg & _ & Hwt).
    exists g'. rewrite !Hwt. by rewrite !decide_True by auto.
  - unfold add_edge_handler. case_decide; [done|].
    by rewrite decide_True by done.
Qed.

(** C6 (amended) at the default graph, for the edge A-B and weight -1. *)
Lemma add_edge_nonpositive_witness :
  (∃ g', add_edge "A" "B" (-1) default_graph = Returns g'
     ∧ weight_of g' "A" "B" = Some (-1) ∧ weight_of g' "B" "A" = Some (-1))
  ∧ add_edge_handler "A" "B" (Some (-1)) default_graph
    = Returns (default_graph, ErrorWeightNotPositive).
Proof. apply (add_edge_nonpositive default_graph "A" "B" (-1)). lia. Defined.

(** C7. [add_edge(a, b, w1)] makes [a] and [b] nodes and sets the weight
    of the edge to [w1] in both directions; a following
    [add_edge(a, b, w2)] leaves exactly [w2] on the edge. *)
Theorem add_edge_overwrite (g : graph) a b w1 w2 :
  ∃ g1 g2,
    add_edge a b w1 g = Returns g1
    ∧ a ∈ dom g1 ∧ b ∈ dom g1
    ∧ weight_of g1 a b = Some w1 ∧ weight_of g1 b a = Some w1
    ∧ add_edge a b w2 g1 = Returns g2
    ∧ a ∈ dom g2 ∧ b ∈ dom g2
    ∧ weight_of g2 a b = Some w2 ∧ weight_of g2 b a = Some w2.
Proof.
  destruct (add_edge_spec a b w1 g) as (g1 & Hg1 & Hd1 & Hw1).
  destruct (add_edge_spec a b w2 g1) as (g2 & Hg2 & Hd2 & Hw2).
  exists g1, g2. rewrite !Hw1, !Hw2, Hd2, Hd1.
  rewrite !decide_True by auto. split_and!; try done; set_solver.
Qed.

(** C8. After [remove_edge(a, b)] on a symmetric graph neither is [b] a
    neighbour of [a] nor [a] of [b]; every other entry [graph[x][y]] is
    as before; the set of nodes is as before, so [a] and [b] stay even
    without neighbours; and when the edge is absent the graph is
    unchanged and nothing is raised. *)
Theorem remove_edge_frame (g : graph) a b :
  symmetric g →
  ∃ g', remove_edge a b g = Returns g'
    ∧ weight_of g' a b = None ∧ weight_of g' b a = None
    ∧ (∀ x y, ¬ ((x = a ∧ y = b) ∨ (x = b ∧ y = a)) →
         weight_of g' x y = weight_of g x y)
    ∧ dom g' = dom g
    ∧ (weight_of g a b = None → g' = g).
Proof.
  intros Hs. destruct (remove_edge_spec a b g) as (g' & Hg & Hd & Hw & Hid).
  exists g'. split_and!; try done.
  - rewrite Hw. by rewrite decide_True by auto.
  - rewrite Hw. by rewrite decide_True by auto.
  - intros x y Hxy. rewrite Hw. by rewrite decide_False.
  - intros Hab. apply Hid; [done|].
    destruct (weight_of g b a) as [w|] eqn:Hba; [|done].
    apply Hs in Hba. congruence.
Qed.

(** C8 at the default graph, for the edge A-B. *)
Lemma remove_edge_frame_witness :
  ∃ g', remove_edge "A" "B" default_graph = Returns g'
    ∧ weight_of g' "A" "B" = None ∧ weight_of g' "B" "A" = None
    ∧ (∀ x y, ¬ ((x = "A" ∧ y = "B") ∨ (x = "B" ∧ y = "A")) →
         weight_of g' x y = weight_of default_graph x y)
    ∧ dom g' = dom default_graph
    ∧ (weight_of default_graph "A" "B" = None → g' = default_graph).
Proof.
  apply remove_edge_frame.
  apply symmetric_check, (bool_decide_unpack _). vm_compute. exact I.
Defined.

(** A push happens only for an unvisited neighbour whose tentative
    distance strictly decreases. *)
Lemma relax_push d u x w st st' :
  relax d u (x, w) st = Returns st' →
  st' = st
  ∨ (x ∉ visited st
     ∧ (∃ old, dist st !! x = Some old ∧ lt_distance (d + w) old)
     ∧ dist st' !! x = Some (Fin (d + w))
     ∧ pq st' = heappush (d + w, x) (pq st)).
Proof.
  unfold relax. case_decide as Hv; [intros [= <-]; by left|].
  intros (old & Hold%getitem_Returns & Hst)%bind_Returns.
  case_decide as Hlt; injection Hst as <-; [right|by left].
  simpl. rewrite lookup_insert_eq. eauto 10.
Qed.

(** An iteration that continues either discards a stale entry or expands
    a node that was not visited, which is visited from then on. *)
Lemma loop_body_expands g target st st' :
  loop_body g target st = Returns (Continue st') →
  (visited st' = visited st ∧ (length (pq st') < length (pq st))%nat)
  ∨ (∃ u, u ∉ visited st ∧ visited st' = {[u]} ∪ visited st).
Proof.
  unfold loop_body.
  destruct (pq st) as [|[d u] pq'] eqn:Hpq; simpl; [done|].
  case_decide as Hv.
  { intros [= <-]. left. simpl. split; [done|lia]. }
  case_decide; [done|].
  intros (nbrs & _ & (st2 & Hr%relax_all_relaxed & [= <-])%bind_Returns)%bind_Returns.
  right. exists u. split; [done|]. apply (relaxed_visited _ _ _ _ _ Hr).
Qed.

(** C9. On every graph and for every two identifiers [dijkstra]
    terminates.  A relaxation pushes only for an unvisited neighbour whose
    tentative distance strictly decreases; an iteration that continues
    either drops a stale entry or expands a node not visited before, and
    in both cases lowers the number of queue entries plus the
    adjacency entries of the nodes not yet expanded; so the loop started
    by [dijkstra] ends within the fuel provided, and so does the whole
    call, with the same result for any larger fuel. *)
Theorem dijkstra_terminates (g : graph) start target fuel :
  (fuel_bound g ≤ fuel)%nat →
  (∀ d u x w st st', relax d u (x, w) st = Returns st' →
     st' = st
     ∨ (x ∉ visited st
        ∧ (∃ old, dist st !! x = Some old ∧ lt_distance (d + w) old)
        ∧ dist st' !! x = Some (Fin (d + w))
        ∧ pq st' = heappush (d + w, x) (pq st)))
  ∧ (∀ st st', loop_body g target st = Returns (Continue st') →
       (visited st' = visited st ∧ (length (pq st') < length (pq st))%nat)
       ∨ (∃ u, u ∉ visited st ∧ visited st' = {[u]} ∪ visited st))
  ∧ (∀ st st', loop_body g target st = Returns (Continue st') →
       (measure g st' < measure g st)%nat)
  ∧ while_loop fuel g target (init_state g start) ≠ OutOfFuel
  ∧ dijkstra_fuel fuel g start target = dijkstra g start target
  ∧ dijkstra g start target ≠ OutOfFuel.
Proof.
  intros Hfuel. split_and!.
  - apply relax_push.
  - apply loop_body_expands.
  - apply loop_body_measure.
  - apply while_loop_terminates. rewrite measure_init.
    unfold fuel_bound in Hfuel. lia.
  - by apply dijkstra_fuel_enough.
  - by apply (dijkstra_fuel_enough g start target fuel).
Qed.

(** C9 at the default graph, from A to F, with one unit of fuel to spare. *)
Lemma dijkstra_terminates_witness :
  dijkstra_fuel (S (fuel_bound default_graph)) default_graph "A" "F"
  = dijkstra default_graph "A" "F"
  ∧ dijkstra default_graph "A" "F" ≠ OutOfFuel.
Proof.
  assert (fuel_bound default_graph ≤ S (fuel_bound default_graph))%nat
    as Hfuel by lia.
  destruct (dijkstra_terminates default_graph "A" "F" _ Hfuel)
    as (_ & _ & _ & _ & H1 & H2).
  exact (conj H1 H2).
Defined.

(** C10. [add_edge(a, a, w)] returns and records the self-loop
    [graph[a][a] = w]; for every [start] and [target], [dijkstra] on the
    resulting graph returns what it returns on the same graph with the
    entry [graph[a][a]] deleted, which is the graph before the call when
    [a] was a node without self-loop. *)
Theorem self_loop_ignored (g : graph) a w :
  ∃ g' g0,
    add_edge a a w g = Returns g' ∧ weight_of g' a a = Some w
    ∧ remove_edge a a g' = Returns g0 ∧ weight_of g0 a a = None
    ∧ (∀ x y, ¬ (x = a ∧ y = a) → weight_of g0 x y = weight_of g' x y)
    ∧ dom g0 = dom g'
    ∧ (a ∈ dom g → weight_of g a a = None → g0 = g)
    ∧ ∀ start target, dijkstra g' start target = dijkstra g0 start target.
Proof.
  destruct (add_edge_spec a a w g) as (g' & Hg' & Hd' & Hw').
  destruct (remove_edge_spec a a g') as (g0 & Hg0 & Hd0 & Hw0 & _).
  exists g', g0. split_and!; try done.
  - rewrite Hw'. by rewrite decide_True by auto.
  - rewrite Hw0. by rewrite decide_True by auto.
  - intros x y Hxy. rewrite Hw0. by rewrite decide_False by tauto.
  - intros Ha Haa. apply graph_eq.
    + rewrite Hd0, Hd'. set_solver.
    + intros x y. rewrite Hw0, Hw'. by repeat case_decide; destruct_or?;
        destruct_and?; simplify_eq.
  - intros start target. by apply (dijkstra_remove_self_loop g' g0 a).
Qed.

(** * Further properties *)

(** ** The edit operations *)

(** X1. [add_edge(a, b, w)] adds no node besides [a] and [b] and touches
    no entry besides [graph[a][b]] and [graph[b][a]]. *)
Theorem add_edge_frame (g : graph) a b w :
  ∃ g', add_edge a b w g = Returns g'
    ∧ dom g' = {[a; b]} ∪ dom g
    ∧ ∀ x y, ¬ ((x = a ∧ y = b) ∨ (x = b ∧ y = a)) →
        weight_of g' x y = weight_of g x y.
Proof.
  destruct (add_edge_spec a b w g) as (g' & Hg & Hd & Hw).
  exists g'. split_and!; [done..|].
  intros x y Hxy. rewrite Hw. by rewrite decide_False.
Qed.

(** X2. The order of the two endpoints does not matter to [add_edge]:
    [add_edge(a, b, w)] and [add_edge(b, a, w)] leave equal
    dictionaries. *)
Theorem add_edge_endpoints_swap (g : graph) a b w :
  add_edge a b w g = add_edge b a w g.
Proof.
  destruct (add_edge_spec a b w g) as (g1 & Hg1 & Hd1 & Hw1).
  destruct (add_edge_spec b a w g) as (g2 & Hg2 & Hd2 & Hw2).
  rewrite Hg1, Hg2. f_equal. apply graph_eq.
  - rewrite Hd1, Hd2. set_solver.
  - intros x y. rewrite Hw1, Hw2. repeat case_decide; naive_solver.
Qed.

(** X3. Neither does it matter to [remove_edge]. *)
Theorem remove_edge_endpoints_swap (g : graph) a b :
  remove_edge a b g = remove_edge b a g.
Proof.
  destruct (remove_edge_spec a b g) as (g1 & Hg1 & Hd1 & Hw1 & _).
  destruct (remove_edge_spec b a g) as (g2 & Hg2 & Hd2 & Hw2 & _).
  rewrite Hg1, Hg2. f_equal. apply graph_eq.
  - by rewrite Hd1, Hd2.
  - intros x y. rewrite Hw1, Hw2. repeat case_decide; naive_solver.
Qed.

(** X4. Adding an edge between two existing nodes that are not adjacent
    and removing it again gives back the graph. *)
Theorem add_then_remove (g : graph) a b w :
  a ∈ dom g → b ∈ dom g →
  weight_of g a b = None → weight_of g b a = None →
  add_edge a b w g ≫= remove_edge a b = Returns g.
Proof.
  intros Ha Hb Hab Hba.
  destruct (add_edge_spec a b w g) as (g1 & Hg1 & Hd1 & Hw1).
  destruct (remove_edge_spec a b g1) as (g2 & Hg2 & Hd2 & Hw2 & _).
  rewrite Hg1. simpl. rewrite Hg2. f_equal. apply graph_eq.
  - rewrite Hd2, Hd1. set_solver.
  - intros x y. rewrite Hw2, Hw1. case_decide as Hxy; [|done].
    destruct Hxy as [[-> ->]|[-> ->]]; done.
Qed.

(** X4 at the default graph, for the non-adjacent nodes A and F. *)
Lemma add_then_remove_witness :
  add_edge "A" "F" 7 default_graph ≫= remove_edge "A" "F"
  = Returns default_graph.
Proof.
  apply add_then_remove.
  - apply (bool_decide_unpack _). vm_compute. exact I.
  - apply (bool_decide_unpack _). vm_compute. exact I.
  - vm_compute. reflexivity.
  - vm_compute. reflexivity.
Defined.

(** X5. Removing an edge that carries [w] in both directions and adding
    it again with [w] gives back the graph. *)
Theorem remove_then_add (g : graph) a b w :
  weight_of g a b = Some w → weight_of g b a = Some w →
  remove_edge a b g ≫= add_edge a b w = Returns g.
Proof.
  intros Hab Hba.
  destruct (remove_edge_spec a b g) as (g1 & Hg1 & Hd1 & Hw1 & _).
  destruct (add_edge_spec a b w g1) as (g2 & Hg2 & Hd2 & Hw2).
  rewrite Hg1. simpl. rewrite Hg2. f_equal. apply graph_eq.
  - rewrite Hd2, Hd1.
    apply weight_of_Some in Hab as (? & ?%elem_of_dom_2 & _).
    apply weight_of_Some in Hba as (? & ?%elem_of_dom_2 & _). set_solver.
  - intros x y. rewrite Hw2, Hw1. case_decide as Hxy; [|done].
    destruct Hxy as [[-> ->]|[-> ->]]; done.
Qed.

(** X5 at the default graph, for the edge A-B of weight 4. *)
Lemma remove_then_add_witness :
  remove_edge "A" "B" default_graph ≫= add_edge "A" "B" 4
  = Returns default_graph.
Proof. apply remove_then_add; vm_compute; reflexivity. Defined.

(** X6. Removing an edge twice is removing it once: the second call finds
    nothing to delete. *)
Theorem remove_edge_twice (g : graph) a b :
  remove_edge a b g ≫= remove_edge a b = remove_edge a b g.
Proof.
  destruct (remove_edge_spec a b g) as (g1 & Hg1 & Hd1 & Hw1 & _).
  destruct (remove_edge_spec a b g1) as (g2 & Hg2 & _ & _ & Hid).
  rewrite Hg1. simpl. rewrite Hg2. f_equal. apply Hid.
  - rewrite Hw1. by rewrite decide_True by auto.
  - rewrite Hw1. by rewrite decide_True by auto.
Qed.

(** ** The edit handlers *)


(** X8. [remove_edge_handler] never raises: it looks [graph[node1]] up
    only after checking that [node1] is a node.  It removes the edge
    exactly when both names are non-empty, [node2] is a node and
    [graph[node1]] has the entry [node2]; then both directed entries are
    gone and every node stays.  In every other case the graph is left as
    it was. *)
Theorem remove_edge_handler_spec (g : graph) a b :
  ∃ g' msg, remove_edge_handler a b g = Returns (g', msg)
    ∧ (msg = RemoveInfoEdgeRemoved ↔
         a ≠ EmptyString ∧ b ≠ EmptyString ∧ b ∈ dom g
         ∧ is_Some (weight_of g a b))
    ∧ (msg ≠ RemoveInfoEdgeRemoved → g' = g)
    ∧ (msg = RemoveInfoEdgeRemoved →
         remove_edge a b g = Returns g'
         ∧ weight_of g' a b = None ∧ weight_of g' b a = None
         ∧ dom g' = dom g).
Proof.
  unfold remove_edge_handler. case_decide as Hn.
  { eexists _, _. split; [done|]. split_and!; [|done..]. naive_solver. }
  case_decide as Hd.
  { eexists _, _. split; [done|]. split_and!; [|done..].
    split; [done|]. intros (_ & _ & Hb & [w Hw]).
    apply weight_of_Some in Hw as (m & ?%elem_of_dom_2 & _). tauto. }
  assert (a ∈ dom g ∧ b ∈ dom g) as [[m Hm]%elem_of_dom Hb].
  { split; apply dec_stable; tauto. }
  unfold getitem. rewrite Hm. simpl. case_decide as He.
  - eexists _, _. split; [done|]. split_and!; [|done..].
    split; [done|]. intros (_ & _ & _ & [w Hw]).
    unfold weight_of in Hw. rewrite Hm in Hw. simpl in Hw.
    by apply elem_of_dom_2 in Hw.
  - destruct (remove_edge_spec a b g) as (g' & Hg & Hdom & Hw & _).
    rewrite Hg. simpl. eexists _, _. split; [done|]. split_and!.
    + split; [|done]. intros _. split_and!; [tauto..|done|].
      unfold weight_of. rewrite Hm. simpl. by apply elem_of_dom.
    + done.
    + intros _. rewrite !Hw. by rewrite !decide_True by auto.
Qed.

(** X9. Whatever the user clicks and types in the graph editor, starting
    from a symmetric graph none of whose weights passes [weight <= 0]:
    no handler raises, and the graph stays symmetric, with every
    neighbour a node and no weight that passes [weight <= 0]. *)
Theorem clicks_keep_invariants (g : graph_of float) cs :
  symmetric g → Float64.weights_accepted g →
  ∃ g', Float64.perform_all cs g = Returns g'
    ∧ symmetric g' ∧ closed g' ∧ Float64.weights_accepted g'.
Proof.
  revert g. induction cs as [|c cs IH]; intros g Hs Hp; simpl.
  - exists g. split_and!; [done..|by apply symmetric_closed|done].
  - destruct (perform_float_valid c g Hs Hp) as (g1 & -> & Hs1 & Hp1). simpl.
    by apply IH.
Qed.

(** X9 from the empty graph, for three clicks, one of them with the
    weight NaN. *)
Lemma clicks_keep_invariants_witness :
  ∃ g', Float64.perform_all
          [Float64.ClickAddEdge "A" "B" (Some 2.5%float);
           Float64.ClickAddEdge "B" "C" (Some nan);
           Float64.ClickRemoveEdge "A" "B"] ∅
        = Returns g'
    ∧ symmetric g' ∧ closed g' ∧ Float64.weights_accepted g'.
Proof.
  apply clicks_keep_invariants.
  - intros a b w. unfold weight_of. rewrite !lookup_empty. simpl. tauto.
  - intros a b w. unfold weight_of. rewrite lookup_empty. simpl. intros [=].
Defined.

(** ** Helpers on [dijkstra] *)

(** Whatever the graph and its weights, a result of [dijkstra] is the
    sentinel or a path of the graph with the weight returned. *)
Lemma dijkstra_sound (g : graph) start target dt path :
  dijkstra g start target = Returns (dt, path) →
  (dt = Inf ∧ path = [])
  ∨ (∃ d, dt = Fin d ∧ is_path g start target path d
       ∧ start ∈ dom g ∧ target ∈ dom g).
Proof.
  destruct (decide (start ∉ dom g ∨ target ∉ dom g)) as [Hout|Hin].
  { unfold dijkstra. rewrite dijkstra_fuel_outside by done.
    intros [= <- <-]. by left. }
  assert (start ∈ dom g ∧ target ∈ dom g) as [Hs Ht].
  { split; apply dec_stable; tauto. }
  unfold dijkstra.
  destruct (while_loop (fuel_bound g) g target (init_state g start))
    as [st'|e|] eqn:Hw.
  - pose proof (while_loop_inv_basic _ _ _ _ _ Hs Hw) as Hi.
    destruct (inv_basic_chain _ _ _ target Hi Ht) as (l & Hl & Hlen).
    assert (is_Some (dist st' !! target)) as [dt' Hdt].
    { apply elem_of_dom. by rewrite (ib_dom_dist _ _ _ Hi). }
    rewrite (dijkstra_fuel_returns g start target _ st' l dt');
      [|done..|unfold fuel_bound; lia|done].
    case_decide as Hinf; intros [= <- <-]; [by left|right].
    destruct dt' as [d|]; [|done]. exists d. split_and!; try done.
    by eapply chain_is_path.
  - unfold dijkstra_fuel. rewrite decide_False by done. by rewrite Hw.
  - unfold dijkstra_fuel. rewrite decide_False by done. by rewrite Hw.
Qed.

(** On a closed graph with positive weights, a reachable [target] gets
    the least weight of all paths. *)
Lemma dijkstra_optimal (g : graph) start target :
  closed g → positive_weights g → start ∈ dom g → target ∈ dom g →
  (∃ p W, is_path g start target p W) →
  ∃ d path, dijkstra g start target = Returns (Fin d, path)
    ∧ is_path g start target path d
    ∧ ∀ p W, is_path g start target p W → d ≤ W.
Proof.
  intros Hc Hpos Hs Ht (p0 & W0 & Hp0).
  destruct (dijkstra_closed_returns g start target Hc Hs Ht)
    as (st' & l & dt & Hw & Hi & Hl & Hdt & Hres).
  assert (∀ p W, is_path g start target p W →
    ∃ d, dist st' !! target = Some (Fin d) ∧ d ≤ W) as Hmin.
  { intros p W Hp%is_path_walk.
    apply (while_loop_optimal g start target _ st' W Hpos Hs Hw Hp). }
  destruct (Hmin p0 W0 Hp0) as (d & Hd & _).
  rewrite Hdt in Hd. injection Hd as ->. rewrite decide_False in Hres by done.
  exists d, (reverse l). split_and!; [done|by eapply chain_is_path|].
  intros p W Hp. destruct (Hmin p W Hp) as (d' & Hd' & Hle).
  rewrite Hdt in Hd'. by injection Hd' as <-.
Qed.

Lemma is_path_reverse (g : graph) a b p W :
  symmetric g → is_path g a b p W → is_path g b a (reverse p) W.
Proof.
  intros Hs. revert a W. induction p as [|x p IH]; intros a W (Hh & Hl & HW).
  { done. }
  injection Hh as ->. destruct p as [|y p].
  - injection Hl as <-. injection HW as <-. apply is_path_refl.
  - rewrite last_cons_cons in Hl. rewrite path_weight_cons_cons in HW.
    destruct (weight_of g a y) as [w|] eqn:Hw; simpl in HW; [|done].
    destruct (path_weight g (y :: p)) as [W'|] eqn:HW'; simpl in HW; [|done].
    injection HW as <-. rewrite reverse_cons.
    replace (w + W') with (W' + w) by lia.
    eapply is_path_snoc; [by apply (IH y)|]. by apply Hs.
Qed.


Lemma is_path_app (g : graph) a b c p q W1 W2 :
  is_path g a b p W1 → is_path g b c q W2 →
  ∃ r, is_path g a c r (W1 + W2).
Proof.
  intros Hp%is_path_walk Hq. apply walk_exists_path.
  by eapply walk_is_path.
Qed.

(** ** More on [dijkstra] *)

(** X10. On every graph with integer weights, of whatever sign, and
    whether or not every neighbour is a node: when [dijkstra] returns a
    finite distance, [start] and [target] are nodes and the path
    returned leads from [start] to [target] along entries of the graph
    whose weights sum to that distance; the only other result is the
    sentinel. *)
Theorem dijkstra_result_sound (g : graph) start target dt path :
  dijkstra g start target = Returns (dt, path) →
  (dt = Inf ∧ path = [])
  ∨ (∃ d, dt = Fin d ∧ is_path g start target path d
       ∧ start ∈ dom g ∧ target ∈ dom g).
Proof. apply dijkstra_sound. Qed.

(** X10 at the default graph, from B to E. *)
Lemma dijkstra_result_sound_witness :
  (Fin 7 = Inf ∧ ["B"; "D"; "E"] = [])
  ∨ (∃ d, Fin 7 = Fin d ∧ is_path default_graph "B" "E" ["B"; "D"; "E"] d
       ∧ "B" ∈ dom default_graph ∧ "E" ∈ dom default_graph).
Proof.
  apply (dijkstra_result_sound default_graph "B" "E").
  vm_compute. reflexivity.
Defined.

(** X11. With every neighbour a node and positive integer weights,
    [dijkstra] between two nodes returns a finite distance exactly when some path
    joins them. *)
Theorem dijkstra_finite_iff_reachable (g : graph) start target :
  closed g → positive_weights g → start ∈ dom g → target ∈ dom g →
  (∃ d path, dijkstra g start target = Returns (Fin d, path))
  ↔ (∃ p W, is_path g start target p W).
Proof.
  intros Hc Hpos Hs Ht. split.
  - intros (d & path & [[[=] _]|(d' & _ & Hp & _)]%dijkstra_sound). eauto.
  - intros Hp.
    destruct (dijkstra_optimal g start target Hc Hpos Hs Ht Hp)
      as (d & path & Hd & _). eauto.
Qed.

(** X11 at the default graph, from A to F. *)
Lemma dijkstra_finite_iff_reachable_witness :
  (∃ d path, dijkstra default_graph "A" "F" = Returns (Fin d, path))
  ↔ (∃ p W, is_path default_graph "A" "F" p W).
Proof.
  apply dijkstra_finite_iff_reachable.
  - apply closed_check, (bool_decide_unpack _). vm_compute. exact I.
  - apply positive_check, (bool_decide_unpack _). vm_compute. exact I.
  - apply (bool_decide_unpack _). vm_compute. exact I.
  - apply (bool_decide_unpack _). vm_compute. exact I.
Defined.

(** X12. On a symmetric graph with positive integer weights the distance
    does not depend on the direction: what [dijkstra(start, target)] returns
    as distance, [dijkstra(target, start)] returns too. *)
Theorem dijkstra_distance_symmetric (g : graph) start target dt path :
  symmetric g → positive_weights g →
  dijkstra g start target = Returns (dt, path) →
  ∃ path', dijkstra g target start = Returns (dt, path').
Proof.
  intros Hsym Hpos Hres. pose proof (symmetric_closed g Hsym) as Hc.
  destruct (dijkstra_sound _ _ _ _ _ Hres)
    as [[-> ->]|(d & -> & Hp & Hs & Ht)].
  - destruct (decide (target ∉ dom g ∨ start ∉ dom g)) as [Hout|Hin].
    { exists []. unfold dijkstra. by rewrite dijkstra_fuel_outside. }
    assert (target ∈ dom g ∧ start ∈ dom g) as [Ht Hs].
    { split; apply dec_stable; tauto. }
    destruct (dijkstra_closed_returns g target start Hc Ht Hs)
      as (st' & l & dt & _ & _ & _ & _ & Hback).
    destruct dt as [d|]; [|by exists []].
    rewrite decide_False in Hback by done.
    apply dijkstra_sound in Hback as [[[=] _]|(d' & _ & Hp & _)].
    apply (is_path_reverse _ _ _ _ _ Hsym) in Hp.
    destruct (dijkstra_optimal g start target Hc Hpos Hs Ht)
      as (d0 & p0 & Hfwd & _); [eauto|]. congruence.
  - pose proof (is_path_reverse _ _ _ _ _ Hsym Hp) as Hrev.
    destruct (dijkstra_optimal g target start Hc Hpos Ht Hs)
      as (d2 & p2 & Hback & Hp2 & Hmin2); [eauto|].
    destruct (dijkstra_optimal g start target Hc Hpos Hs Ht)
      as (d1 & p1 & Hfwd & _ & Hmin1); [eauto|].
    rewrite Hfwd in Hres. injection Hres as -> ->.
    pose proof (Hmin2 _ _ Hrev).
    pose proof (Hmin1 _ _ (is_path_reverse _ _ _ _ _ Hsym Hp2)).
    exists p2. rewrite Hback. do 3 f_equal. lia.
Qed.

(** X12 at the default graph, from A to F. *)
Lemma dijkstra_distance_symmetric_witness :
  ∃ path', dijkstra default_graph "F" "A" = Returns (Fin 12, path').
Proof.
  apply (dijkstra_distance_symmetric default_graph "A" "F" (Fin 12)
           ["A"; "C"; "B"; "D"; "E"; "F"]).
  - apply symmetric_check, (bool_decide_unpack _). vm_compute. exact I.
  - apply positive_check, (bool_decide_unpack _). vm_compute. exact I.
  - vm_compute. reflexivity.
Defined.

(** X13. With every neighbour a node and positive integer weights, going
    through an intermediate stop is never shorter than the route [dijkstra]
    finds directly. *)
Theorem dijkstra_triangle (g : graph) start stop target d1 p1 d2 p2 :
  closed g → positive_weights g →
  dijkstra g start stop = Returns (Fin d1, p1) →
  dijkstra g stop target = Returns (Fin d2, p2) →
  ∃ d path, dijkstra g start target = Returns (Fin d, path) ∧ d ≤ d1 + d2.
Proof.
  intros Hc Hpos
    [[[=] _]|(? & [= <-] & Hp1 & Hs & _)]%dijkstra_sound
    [[[=] _]|(? & [= <-] & Hp2 & _ & Ht)]%dijkstra_sound.
  destruct (is_path_app _ _ _ _ _ _ _ _ Hp1 Hp2) as [r Hr].
  destruct (dijkstra_optimal g start target Hc Hpos Hs Ht)
    as (d & path & Hres & _ & Hmin); [eauto|].
  exists d, path. split; [done|]. by apply (Hmin r).
Qed.

(** X13 at the default graph, from A to F through E. *)
Lemma dijkstra_triangle_witness :
  ∃ d path,
    dijkstra default_graph "A" "F" = Returns (Fin d, path) ∧ d ≤ 10 + 2.
Proof.
  apply (dijkstra_triangle default_graph "A" "E" "F"
           10 ["A"; "C"; "B"; "D"; "E"] 2 ["E"; "F"]).
  - apply closed_check, (bool_decide_unpack _). vm_compute. exact I.
  - apply positive_check, (bool_decide_unpack _). vm_compute. exact I.
  - vm_compute. reflexivity.
  - vm_compute. reflexivity.
Defined.





(** X16. The loop over the neighbours of a node does not depend on the
    order in which the dictionary yields its items: when it completes in
    one order it completes in every order, with the same queue, distances
    and parents; when it raises [KeyError] in one order it raises
    [KeyError] in every order, possibly for another missing neighbour. *)
Theorem relax_order_irrelevant d u items1 items2 st :
  NoDup items1.*1 → items1 ≡ₚ items2 →
  (∀ st', relax_all d u items1 st = Returns st'
          ↔ relax_all d u items2 st = Returns st')
  ∧ ((∃ e, relax_all d u items1 st = Raises e)
     ↔ (∃ e, relax_all d u items2 st = Raises e)).
Proof.
  intros Hnd Hp. by rewrite (relax_all_perm d u items1 items2 st Hnd Hp).
Qed.

(** X16 for the two neighbours of A in the default graph. *)
Lemma relax_order_irrelevant_witness :
  (∀ st',
     relax_all 0 "A" [("B", 4); ("C", 2)]
       (State [] (<["A" := Fin 0]> ((λ _, Inf) <$> default_graph))
              ((λ _, None) <$> default_graph) {["A"]})
     = Returns st'
     ↔ relax_all 0 "A" [("C", 2); ("B", 4)]
         (State [] (<["A" := Fin 0]> ((λ _, Inf) <$> default_graph))
                ((λ _, None) <$> default_graph) {["A"]})
       = Returns st')
  ∧ ((∃ e, relax_all 0 "A" [("B", 4); ("C", 2)]
             (State [] (<["A" := Fin 0]> ((λ _, Inf) <$> default_graph))
                    ((λ _, None) <$> default_graph) {["A"]})
           = Raises e)
     ↔ (∃ e, relax_all 0 "A" [("C", 2); ("B", 4)]
               (State [] (<["A" := Fin 0]> ((λ _, Inf) <$> default_graph))
                      ((λ _, None) <$> default_graph) {["A"]})
             = Raises e)).
Proof.
  apply relax_order_irrelevant.
  - apply (bool_decide_unpack _). vm_compute. exact I.
  - apply perm_swap.
Defined.

(** ** [find_route] and the highlighted path *)

Lemma path_details_cons_cons (g : graph) x y path total :
  path_details g (x :: y :: path) total
  = m ← getitem g x; weight ← getitem m y;
    rows ← path_details g (y :: path) (total + weight);
    mret ((x, y, weight, total + weight) :: rows).
Proof. done. Qed.

Global Arguments path_details : simpl never.

Lemma consecutive_cons_cons x y (path : list node) :
  consecutive (x :: y :: path) = (x, y) :: consecutive (y :: path).
Proof. done. Qed.

Global Arguments consecutive : simpl never.

Lemma path_details_spec (g : graph) path W total :
  path_weight g path = Some W →
  ∃ rows, path_details g path total = Returns rows
    ∧ (λ r, r.1.1) <$> rows = consecutive path
    ∧ Forall (λ r, weight_of g r.1.1.1 r.1.1.2 = Some r.1.2) rows
    ∧ running_totals total rows
    ∧ final_total total rows = total + W.
Proof.
  revert W total. induction path as [|x path IH]; intros W total HW.
  { injection HW as <-. exists []. unfold final_total. simpl.
    split_and!; try done. lia. }
  destruct path as [|y path].
  { injection HW as <-. exists []. unfold final_total. simpl.
    split_and!; try done. lia. }
  rewrite path_weight_cons_cons in HW.
  destruct (weight_of g x y) as [w|] eqn:Hw; simpl in HW; [|done].
  destruct (path_weight g (y :: path)) as [W'|] eqn:HW'; simpl in HW; [|done].
  injection HW as <-.
  destruct (IH W' (total + w) eq_refl) as (rows & Hrows & Hp & Hall & Hrun & Hfin).
  pose proof Hw as (m & Hm & Hy)%weight_of_Some.
  rewrite path_details_cons_cons.
  rewrite (bind_Returns_l (getitem g x) _ m) by by apply getitem_Returns.
  rewrite (bind_Returns_l (getitem m y) _ w) by by apply getitem_Returns.
  rewrite Hrows. simpl.
  eexists. split; [done|]. split_and!.
  - rewrite fmap_cons, Hp. by rewrite consecutive_cons_cons.
  - by constructor.
  - done.
  - unfold final_total in *. destruct rows as [|r rows].
    + simpl in *. lia.
    + rewrite last_cons_cons.
      destruct (last (r :: rows)) as [z|] eqn:Hl; simpl in *; [lia|].
      by apply last_None in Hl.
Qed.

(** X17. Whenever [find_route] shows a route, on any graph with integer
    weights: the distance is finite, the path leads from [start] to [target] in the graph, the
    detail rows are the consecutive pairs of the path, each with the
    weight of its entry in the graph, each total is the one before plus
    that weight, and the last total is the distance shown. *)
Theorem find_route_details (g : graph) start target path dt rows :
  find_route start target g = Returns (RouteFound path dt rows) →
  ∃ d, dt = Fin d
    ∧ is_path g start target path d
    ∧ (λ r, r.1.1) <$> rows = consecutive path
    ∧ Forall (λ r, weight_of g r.1.1.1 r.1.1.2 = Some r.1.2) rows
    ∧ running_totals 0 rows
    ∧ final_total 0 rows = d.
Proof.
  unfold find_route. case_decide; [done|]. case_decide; [done|].
  intros ([dt' path'] & Hres & Hrep)%bind_Returns.
  case_decide as Hinf; [done|].
  apply bind_Returns in Hrep as (rows' & Hrows & [= <- <- <-]).
  apply dijkstra_sound in Hres as [[-> _]|(d & -> & Hp & _)]; [done|].
  destruct (path_details_spec g path' d 0) as (rows0 & Hrows0 & H1 & H2 & H3 & H4).
  { apply Hp. }
  rewrite Hrows0 in Hrows. injection Hrows as <-.
  exists d. split_and!; try done.
Qed.

(** X17 at the default graph, from A to F. *)
Lemma find_route_details_witness :
  ∃ d, Fin 12 = Fin d
    ∧ is_path default_graph "A" "F" ["A"; "C"; "B"; "D"; "E"; "F"] d
    ∧ (λ r, r.1.1) <$> [("A", "C", 2, 2); ("C", "B", 1, 3); ("B", "D", 5, 8);
                         ("D", "E", 2, 10); ("E", "F", 2, 12)]
      = consecutive ["A"; "C"; "B"; "D"; "E"; "F"]
    ∧ Forall (λ r, weight_of default_graph r.1.1.1 r.1.1.2 = Some r.1.2)
        [("A", "C", 2, 2); ("C", "B", 1, 3); ("B", "D", 5, 8);
         ("D", "E", 2, 10); ("E", "F", 2, 12)]
    ∧ running_totals 0
        [("A", "C", 2, 2); ("C", "B", 1, 3); ("B", "D", 5, 8);
         ("D", "E", 2, 10); ("E", "F", 2, 12)]
    ∧ final_total 0
        [("A", "C", 2, 2); ("C", "B", 1, 3); ("B", "D", 5, 8);
         ("D", "E", 2, 10); ("E", "F", 2, 12)] = d.
Proof.
  apply (find_route_details default_graph "A" "F").
  vm_compute. reflexivity.
Defined.

(** X18. With every neighbour a node and positive integer weights,
    [find_route] never raises, and what it shows is decided by its input alone: the
    warning when a selection is empty; else the node error when a
    selection is no node; else "no path" when no path joins the two
    nodes; else the route.  Unknown nodes never reach [dijkstra]. *)
Theorem find_route_reports (g : graph) start target :
  closed g → positive_weights g →
  ∃ r, find_route start target g = Returns r
    ∧ (r = RouteWarnSelectBoth ↔
         start = EmptyString ∨ target = EmptyString)
    ∧ (r = RouteErrorNodesMissing ↔
         ¬ (start = EmptyString ∨ target = EmptyString)
         ∧ (start ∉ dom g ∨ target ∉ dom g))
    ∧ (r = RouteNoPath ↔
         ¬ (start = EmptyString ∨ target = EmptyString)
         ∧ start ∈ dom g ∧ target ∈ dom g
         ∧ ¬ ∃ p W, is_path g start target p W)
    ∧ ((∃ path d rows, r = RouteFound path d rows) ↔
         ¬ (start = EmptyString ∨ target = EmptyString)
         ∧ start ∈ dom g ∧ target ∈ dom g
         ∧ ∃ p W, is_path g start target p W).
Proof.
  intros Hc Hpos. unfold find_route. case_decide as Hn.
  { eexists. split; [done|]. split_and!; split; try done; try tauto.
    by intros (? & ? & ? & ?). }
  case_decide as Hd.
  { eexists. split; [done|]. split_and!; split; try done; try tauto.
    by intros (? & ? & ? & ?). }
  assert (start ∈ dom g ∧ target ∈ dom g) as [Hs Ht].
  { split; apply dec_stable; tauto. }
  destruct (dijkstra_closed_returns g start target Hc Hs Ht)
    as (st' & l & dt & _ & _ & _ & _ & Hres).
  destruct dt as [d|].
  - rewrite decide_False in Hres by done. rewrite Hres. simpl.
    pose proof Hres as [[[=] _]|(? & [= <-] & Hp & _)]%dijkstra_sound.
    destruct (path_details_spec g (reverse l) d 0) as (rows & -> & _);
      [apply Hp|].
    simpl. eexists. split; [done|]. split_and!; split; try done; try tauto.
    + intros (_ & _ & _ & Hnp). destruct Hnp. eauto.
    + intros _. split_and!; eauto.
    + eauto.
  - rewrite decide_True in Hres by done. rewrite Hres. simpl.
    eexists. split; [done|].
    assert (¬ ∃ p W, is_path g start target p W) as Hnp.
    { intros Hp.
      destruct (dijkstra_optimal g start target Hc Hpos Hs Ht Hp)
        as (d & path & ? & _). congruence. }
    split_and!; split; try done; try tauto.
    by intros (? & ? & ? & ?).
Qed.

(** X18 at the default graph, from A to F. *)
Lemma find_route_reports_witness :
  ∃ r, find_route "A" "F" default_graph = Returns r
    ∧ (r = RouteWarnSelectBoth ↔ "A" = EmptyString ∨ "F" = EmptyString)
    ∧ (r = RouteErrorNodesMissing ↔
         ¬ ("A" = EmptyString ∨ "F" = EmptyString)
         ∧ ("A" ∉ dom default_graph ∨ "F" ∉ dom default_graph))
    ∧ (r = RouteNoPath ↔
         ¬ ("A" = EmptyString ∨ "F" = EmptyString)
         ∧ "A" ∈ dom default_graph ∧ "F" ∈ dom default_graph
         ∧ ¬ ∃ p W, is_path default_graph "A" "F" p W)
    ∧ ((∃ path d rows, r = RouteFound path d rows) ↔
         ¬ ("A" = EmptyString ∨ "F" = EmptyString)
         ∧ "A" ∈ dom default_graph ∧ "F" ∈ dom default_graph
         ∧ ∃ p W, is_path default_graph "A" "F" p W).
Proof.
  apply find_route_reports.
  - apply closed_check, (bool_decide_unpack _). vm_compute. exact I.
  - apply positive_check, (bool_decide_unpack _). vm_compute. exact I.
Defined.

Lemma consecutive_entries (g : graph) path W x y :
  path_weight g path = Some W → (x, y) ∈ consecutive path →
  is_Some (weight_of g x y).
Proof.
  revert W. induction path as [|a path IH]; intros W HW Hin.
  { by apply elem_of_nil in Hin. }
  destruct path as [|b path]; [by apply elem_of_nil in Hin|].
  rewrite path_weight_cons_cons in HW. rewrite consecutive_cons_cons in Hin.
  destruct (weight_of g a b) as [w|] eqn:Hw; simpl in HW; [|done].
  destruct (path_weight g (b :: path)) as [W'|] eqn:HW'; simpl in HW; [|done].
  apply elem_of_cons in Hin as [[= -> ->]|Hin]; [by rewrite Hw|].
  by eapply IH.
Qed.

Lemma length_consecutive (path : list node) :
  length (consecutive path) = pred (length path).
Proof.
  induction path as [|a [|b path] IH]; [done..|].
  rewrite consecutive_cons_cons. simpl in *. by rewrite IH.
Qed.

(** X19. The edges [visualize_graph] highlights for a path returned by
    [dijkstra] are one fewer than its nodes (none for the empty path of
    the sentinel and for a single node), and each of them is an entry of
    the graph. *)
Theorem path_edges_in_graph (g : graph) start target dt path :
  dijkstra g start target = Returns (dt, path) →
  length (path_edges path) = pred (length path)
  ∧ ∀ x y, (x, y) ∈ path_edges path → is_Some (weight_of g x y).
Proof.
  intros Hres. assert (path_edges path = consecutive path) as ->.
  { unfold path_edges. case_decide as Hc; [done|].
    destruct path as [|a [|b path]]; [done..|].
    destruct Hc. split; [done|simpl; lia]. }
  split; [apply length_consecutive|].
  intros x y Hin.
  apply dijkstra_sound in Hres as [[_ ->]|(d & _ & (_ & _ & HW) & _)].
  - by apply elem_of_nil in Hin.
  - by eapply consecutive_entries.
Qed.

(** X19 at the default graph, from B to E. *)
Lemma path_edges_in_graph_witness :
  length (path_edges ["B"; "D"; "E"]) = pred (length ["B"; "D"; "E"])
  ∧ ∀ x y, (x, y) ∈ path_edges ["B"; "D"; "E"] →
      is_Some (weight_of default_graph x y).
Proof.
  apply (path_edges_in_graph default_graph "B" "E" (Fin 7)).
  vm_compute. reflexivity.
Defined.
